(** * sql-alertmanager: the alert identity function, the debounce state
    store and the per-rule reconciliation loop.

    Shallow embedding of [alertstate.go] and of the rule goroutine of
    [main.go].  Go maps are finite maps ([gmap]); the order in which Go
    ranges over a map is unspecified and is therefore an explicit input
    wherever the code ranges over one.  Timestamps and durations are
    integers (nanoseconds).  The file system, the JSON codec and the wall
    clock are collaborators outside the repository and are taken through
    the interface [Sys]. *)

From Stdlib Require Import ZArith Ascii.
From stdpp Require Import gmap strings list fin_maps sorting.

(** ** Data model *)

Abbreviation LabelSet := (gmap string string).
Abbreviation Time := Z.
Abbreviation Duration := Z.
Abbreviation error := string.

(** ** alertstate.go: [key] *)

Module Identity.

(** The [strings.Builder] loop of [key]: [i] is the loop index, [b] the
    builder's content so far.  [labels[k]] of a missing key is the zero
    value, the empty string. *)
Fixpoint write_pairs (i : nat) (keys : list string) (labels : LabelSet)
    (b : string) : string :=
  match keys with
  | [] => b
  | k :: keys' =>
      let b := if decide (0 < i) then b +:+ "," else b in
      let b := b +:+ k in
      let b := b +:+ "=" in
      let b := b +:+ default "" (labels !! k) in
      write_pairs (S i) keys' labels b
  end.

(** [key], with the order [ranged] in which [for k := range labels] yields
    the keys made explicit.  [sort.Strings] sorts in increasing byte-wise
    order, which is [String.le]. *)
Definition key_ranged (ranged : list string) (labels : LabelSet) : string :=
  if decide (size labels = 0) then ""
  else
    let keys := merge_sort String.le ranged in
    write_pairs 0 keys labels "".

(** [ranged] is a possible outcome of ranging over [labels]: every key of
    the map exactly once. *)
Definition ranges_over (ranged : list string) (labels : LabelSet) : Prop :=
  NoDup ranged ∧ list_to_set ranged = dom labels.

#[global] Instance ranges_over_dec ranged labels :
  Decision (ranges_over ranged labels).
Proof. unfold ranges_over. apply _. Defined.

(** [key] at one fixed iteration order, the one of [map_to_list]. *)
Definition key (labels : LabelSet) : string :=
  key_ranged (map_to_list labels).*1 labels.

End Identity.
Export Identity.

(** ** The shape of the text that [key] writes *)
Module IdentityShape.

(** The text written for one label: the name, "=", the value. *)
Definition entry (labels : LabelSet) (k : string) : string :=
  k +:+ "=" +:+ default "" (labels !! k).

(** The character [c] occurs in [s]. *)
Fixpoint occurs (c : Ascii.ascii) (s : string) : bool :=
  match s with
  | EmptyString => false
  | String a s' => if decide (a = c) then true else occurs c s'
  end.

(** No label name has a "=", no label value has a ",". *)
Definition separable (labels : LabelSet) : Prop :=
  map_Forall (λ k v, occurs "="%char k = false ∧ occurs ","%char v = false)
    labels.

End IdentityShape.
Export IdentityShape.


(** ** Collaborators outside the repository *)

(** Outcome of [os.ReadFile]; [ReadNotExist] is an error for which
    [errors.Is(err, os.ErrNotExist)] holds. *)
Inductive ReadResult :=
  | ReadData (data : string)
  | ReadNotExist
  | ReadError (e : error).

(** The operating system, [encoding/json] and the wall clock, as far as the
    code uses them.  [time_Now n] is the [n]-th reading of the clock; the
    JSON codec works on [map[string]time.Time]. *)
Class Sys := {
  Files : Type;
  os_ReadFile : Files → string → ReadResult;
  os_WriteFile : Files → string → string → Files * option error;
  os_Rename : Files → string → string → Files * option error;
  json_Unmarshal : string → gmap string Time → gmap string Time * option error;
  json_MarshalIndent : gmap string Time → string + error;
  time_Now : nat → Time;
}.

(** [time.Duration] is a signed 64-bit count of nanoseconds; [Time.Sub]
    saturates at its bounds. *)
Definition minDuration : Duration := (- 2 ^ 63)%Z.
Definition maxDuration : Duration := (2 ^ 63 - 1)%Z.
Definition Sub (t u : Time) : Duration :=
  Z.max minDuration (Z.min maxDuration (t - u)).

(** ** alertstate.go: [Manager] *)

Record Manager := {
  state : gmap string Time;
  filePath : string;
}.

Definition NewManager (filePath : string) : Manager :=
  {| state := ∅; filePath := filePath |}.

(** ** main.go: the alert objects *)

(** [models.Alert] *)
Record Alert := {
  Labels : LabelSet;
  GeneratorURL : string;
}.

(** [models.PostableAlert].  [EndsAt] is [None] for the zero
    [strfmt.DateTime], which is left out of the request. *)
Record PostableAlert := {
  Annotations : LabelSet;
  EndsAt : option Time;
  StartsAt : Time;
  PAlert : Alert;
}.

(** [models.GettableAlert], the fields the code reads. *)
Record GettableAlert := {
  gAnnotations : LabelSet;
  gStartsAt : Time;
  gAlert : Alert;
}.

Inductive Level := LevelDebug | LevelInfo | LevelWarn | LevelError.

(** ** The state the code works on *)

(** [store] is the one [Manager] of the process, [files] the file system,
    [reads] the number of clock readings taken so far, [heap] the
    [PostableAlert] objects allocated so far (a [*models.PostableAlert] is
    an index into it), [logs] the [slog] records and [posts] the batches
    handed to [PostAlerts], both oldest first. *)
Record World `{Sys} := {
  store : Manager;
  files : Files;
  reads : nat;
  heap : list PostableAlert;
  logs : list (Level * string);
  posts : list (list PostableAlert);
}.

Section Monad.
Context `{Sys}.

Definition M (A : Type) : Type := World → A * World.

Definition ret {A} (a : A) : M A := λ w, (a, w).
Definition bind {A B} (c : M A) (k : A → M B) : M B :=
  λ w, let '(a, w') := c w in k a w'.

Definition set_state (st : gmap string Time) : M unit := λ w,
  (tt, {| store := {| state := st; filePath := filePath (store w) |};
          files := files w; reads := reads w; heap := heap w;
          logs := logs w; posts := posts w |}).
Definition set_files (fs : Files) : M unit := λ w,
  (tt, {| store := store w; files := fs; reads := reads w; heap := heap w;
          logs := logs w; posts := posts w |}).
Definition set_heap (h : list PostableAlert) : M unit := λ w,
  (tt, {| store := store w; files := files w; reads := reads w; heap := h;
          logs := logs w; posts := posts w |}).
Definition get_state : M (gmap string Time) := λ w, (state (store w), w).
Definition get_heap : M (list PostableAlert) := λ w, (heap w, w).

(** [time.Now()] *)
Definition now : M Time := λ w,
  (time_Now (reads w),
   {| store := store w; files := files w; reads := S (reads w);
      heap := heap w; logs := logs w; posts := posts w |}).

(** [slog.Debug], [slog.Info], [slog.Warn], [slog.Error] *)
Definition slog (l : Level) (msg : string) : M unit := λ w,
  (tt, {| store := store w; files := files w; reads := reads w;
          heap := heap w; logs := logs w ++ [(l, msg)]; posts := posts w |}).

(** [amClient.Alert.PostAlerts] receives the batch. *)
Definition record_post (batch : list PostableAlert) : M unit := λ w,
  (tt, {| store := store w; files := files w; reads := reads w;
          heap := heap w; logs := logs w; posts := posts w ++ [batch] |}).

(** [&models.PostableAlert{...}] *)
Definition alloc (a : PostableAlert) : M nat := λ w,
  (length (heap w),
   {| store := store w; files := files w; reads := reads w;
      heap := heap w ++ [a]; logs := logs w; posts := posts w |}).

End Monad.

Notation "'let*' x := c 'in' k" := (bind c (λ x, k))
  (at level 10, x pattern, c at level 100, k at level 200,
   format "'[v' 'let*'  x  :=  c  'in' '/' k ']'").
Notation "c ;; k" := (bind c (λ _, k))
  (at level 100, k at level 200, right associativity).

(** ** alertstate.go: the methods of [Manager]

    The receiver is the [store] of the world.  Each method runs under
    [m.mu], so it is one atomic step of the world. *)
Section Store.
Context `{Sys}.

Definition Load : M (option error) := λ w,
  match os_ReadFile (files w) (filePath (store w)) with
  | ReadNotExist => (None, w) (* empty state is fine *)
  | ReadError e => (Some e, w)
  | ReadData data =>
      let '(st, err) := json_Unmarshal data (state (store w)) in
      (err, (set_state st w).2)
  end.

Definition flushLocked : M (option error) := λ w,
  match json_MarshalIndent (state (store w)) with
  | inr e => (Some e, w)
  | inl data =>
      let tmp := filePath (store w) +:+ ".tmp" in
      let '(fs1, err) := os_WriteFile (files w) tmp data in
      match err with
      | Some e => (Some e, (set_files fs1 w).2)
      | None =>
          let '(fs2, err) := os_Rename fs1 tmp (filePath (store w)) in
          (err, (set_files fs2 w).2)
      end
  end.

(** MarkActive sets firstSeen for a key if not already set *)
Definition MarkActive (key : string) : M (option error) :=
  let* st := get_state in
  match st !! key with
  | None =>
      let* t := now in
      set_state (<[key := t]> st);;
      flushLocked
  | Some _ => ret None
  end.

(** MarkResolved deletes the key and persists *)
Definition MarkResolved (key : string) : M (option error) :=
  let* st := get_state in
  match st !! key with
  | Some _ =>
      set_state (delete key st);;
      flushLocked
  | None => ret None
  end.

(** [time.Since(first)] *)
Definition Since (first : Time) : M Duration :=
  let* t := now in ret (Sub t first).

(** ShouldFire returns true if now >= firstSeen + forDuration *)
Definition ShouldFire (key : string) (forDuration : Duration) : M bool :=
  let* st := get_state in
  match st !! key with
  | None => ret false
  | Some first =>
      let* elapsed := Since first in
      ret (bool_decide (forDuration ≤ elapsed)%Z)
  end.

End Store.

(** ** main.go: rules and the collaborators of one evaluation *)

Record AlertRule := {
  Name : string;
  Query : string;
  EvaluateFreq : Duration;
  LabelCols : list string;
  AnnotationCols : list string;
  For : Duration;
}.

Record Config := {
  Db : string;
  Rules : list AlertRule;
}.

(** What [rows.Next] and [rows.Scan] deliver for one row: a scan error, or
    the raw column values ([None] is a nil [sql.RawBytes]). *)
Inductive RowEvent :=
  | ScanFailed (e : error)
  | Scanned (raw : list (option string)).

(** What the database does with the rule's query: [QueryContext] fails,
    [rows.Columns] fails, or the rows arrive, after which [rows.Err]
    reports [final]. *)
Inductive QueryOutcome :=
  | QueryFailed (e : error)
  | ColumnsFailed (e : error)
  | QueryRows (cols : list string) (rows : list RowEvent)
      (final : option error).

(** The response of [PostAlerts]: a transport error, or a response with
    [IsSuccess]. *)
Inductive PostOutcome :=
  | PostFailed (e : error)
  | PostResponse (success : bool).

(** Everything the outside world contributes to one tick of a rule. *)
Record CycleInput := {
  query : QueryOutcome;
  getAlerts : list GettableAlert + error;
  postAlerts : PostOutcome;
}.

(** ** main.go: one tick of the rule goroutine

    The goroutines of other rules reach the store through the same
    methods only; what follows is the run of one rule's goroutine. *)

Section Rule.
Context `{Sys}.

(** lines 188-195: [row[col]] for every column; [i] is the loop index.
    [raw] is made with [len(cols)] entries, an entry that the outcome does
    not supply reads as nil. *)
Fixpoint fill_row (i : nat) (cols : list string) (raw : list (option string))
    (row : gmap string string) : gmap string string :=
  match cols with
  | [] => row
  | col :: cols' =>
      let v := match raw !! i with
               | Some (Some bytes) => bytes
               | _ => ""
               end in
      fill_row (S i) cols' raw (<[col := v]> row)
  end.

(** lines 200-212: copy the non-empty values of the listed columns into
    [acc]. *)
Fixpoint pick_cols (cols : list string) (row : gmap string string)
    (acc : LabelSet) : LabelSet :=
  match cols with
  | [] => acc
  | col :: cols' =>
      let val := default "" (row !! col) in
      pick_cols cols' row (if decide (val ≠ "") then <[col := val]> acc else acc)
  end.

(** lines 163-172: one warning per configured column that the result
    lacks.  [append(r.LabelCols, r.AnnotationCols...)] *)
Fixpoint warn_missing (colSet : gset string) (wanted : list string) : M unit :=
  match wanted with
  | [] => ret tt
  | c :: wanted' =>
      (if decide (c ∈ colSet) then ret tt
       else slog LevelWarn "column missing from query result");;
      warn_missing colSet wanted'
  end.

(** lines 174-222: the [rows.Next] loop.  [firingAlerts] is the slice of
    pointers collected so far; the result's second component tells whether
    the enclosing function literal returned from inside the loop. *)
Fixpoint scan_rows (r : AlertRule) (cols : list string) (rows : list RowEvent)
    (firingAlerts : list nat) : M (list nat * bool) :=
  match rows with
  | [] => ret (firingAlerts, false)
  | ScanFailed e :: _ =>
      slog LevelError "error scanning row";;
      ret (firingAlerts, true)
  | Scanned raw :: rows' =>
      let row := fill_row 0 cols raw ∅ in
      let annotations := pick_cols (AnnotationCols r) row ∅ in
      let labels := pick_cols (LabelCols r) row ∅ in
      let labels := <["alertname" := Name r]> labels in
      let* t := now in
      let* p := alloc {| Annotations := annotations;
                         StartsAt := t;
                         EndsAt := None;
                         PAlert := {| Labels := labels; GeneratorURL := "" |} |} in
      scan_rows r cols rows' (firingAlerts ++ [p])
  end.

(** lines 142-232: execute the rule query and parse results to create a
    list of firingAlerts. *)
Definition run_query (r : AlertRule) (q : QueryOutcome) : M (list nat) :=
  match q with
  | QueryFailed e => slog LevelError "query failed";; ret []
  | ColumnsFailed e => slog LevelError "error getting columns";; ret []
  | QueryRows cols rows final =>
      warn_missing (list_to_set cols) (LabelCols r ++ AnnotationCols r);;
      let* (firingAlerts, returned) := scan_rows r cols rows [] in
      if returned : bool then ret firingAlerts
      else
        match final with
        | Some e =>
            slog LevelError "error processing query data";;
            ret firingAlerts
        | None => ret firingAlerts
        end
  end.

(** [p.Labels] for a pointer [p]. *)
Definition labels_at (h : list PostableAlert) (p : nat) : option LabelSet :=
  (λ a, Labels (PAlert a)) <$> h !! p.

(** lines 246-255: mark active alerts in store and drop any alerts that
    have not hit the "for" threshold. *)
Fixpoint filter_for (r : AlertRule) (firingAlerts : list nat)
    (filteredAlerts : list nat) : M (list nat) :=
  match firingAlerts with
  | [] => ret filteredAlerts
  | alert :: rest =>
      let* h := get_heap in
      (* alert points into the heap, labels_at is never None here *)
      let k := key (default ∅ (labels_at h alert)) in
      MarkActive k;;
      let* fire := ShouldFire k (For r) in
      filter_for r rest
        (if fire : bool then filteredAlerts ++ [alert] else filteredAlerts)
  end.

(** [a.StartsAt = t] *)
Definition set_StartsAt (t : Time) (a : PostableAlert) : PostableAlert :=
  {| Annotations := Annotations a; EndsAt := EndsAt a; StartsAt := t;
     PAlert := PAlert a |}.

(** lines 290-300: the search of [firingAlerts] for the labels of
    [existing].  [Some h'] when an entry was found, [h'] being the heap
    after [firingAlerts[idx].StartsAt = *existing.StartsAt]; [None] when
    [found] stays false.  [reflect.DeepEqual] on two label maps is equality
    of the maps. *)
Fixpoint match_firing (existing : GettableAlert) (firingAlerts : list nat)
    (h : list PostableAlert) : option (list PostableAlert) :=
  match firingAlerts with
  | [] => None
  | p :: rest =>
      match h !! p with
      | Some a =>
          if decide (Labels (gAlert existing) = Labels (PAlert a)) then
            Some (<[p := set_StartsAt (gStartsAt existing) a]> h)
          else match_firing existing rest h
      | None => match_firing existing rest h
      end
  end.

(** lines 288-309: the loop over [existingAlerts]. *)
Fixpoint reconcile (firingAlerts : list nat) (existingAlerts : list GettableAlert)
    (filteredAlerts : list nat) : M (list nat) :=
  match existingAlerts with
  | [] => ret filteredAlerts
  | existing :: rest =>
      let* h := get_heap in
      match match_firing existing firingAlerts h with
      | Some h' =>
          set_heap h';;
          reconcile firingAlerts rest filteredAlerts
      | None =>
          let* t := now in
          let* p := alloc {| Annotations := ∅;
                             EndsAt := Some t;
                             StartsAt := gStartsAt existing;
                             PAlert := gAlert existing |} in
          MarkResolved (key (Labels (gAlert existing)));;
          reconcile firingAlerts rest (filteredAlerts ++ [p])
      end
  end.

(** The alerts a slice of pointers denotes. *)
Definition deref (h : list PostableAlert) (ps : list nat) : list PostableAlert :=
  omap (λ p, h !! p) ps.

(** lines 311-340: post all alerts to alertmanager. *)
Definition post_alerts (filteredAlerts : list nat) (out : PostOutcome) : M unit :=
  let* h := get_heap in
  record_post (deref h filteredAlerts);;
  match out with
  | PostFailed e => slog LevelError "failed to send alerts"
  | PostResponse true => slog LevelInfo "alerts sent"
  | PostResponse false => slog LevelError "failed to send alerts"
  end.

(** How the body of [case <-ticker.C] ends: it falls through to the next
    iteration of [for], or it executes a [return] of the goroutine's
    function. *)
Inductive Flow := NextIteration | ReturnFromGoroutine.

(** lines 134-341: the body of [case <-ticker.C]. *)
Definition tick (r : AlertRule) (inp : CycleInput) : M Flow :=
  slog LevelDebug "executing query";;
  let* firingAlerts := run_query r (query inp) in
  if decide (length firingAlerts = 0) then
    slog LevelDebug "no alerts found";;
    ret ReturnFromGoroutine
  else
    slog LevelInfo "alerts found";;
    let* filteredAlerts := filter_for r firingAlerts [] in
    match getAlerts inp with
    | inr err =>
        slog LevelError "failed to get active alerts";;
        ret ReturnFromGoroutine
    | inl existingAlerts =>
        let* filteredAlerts := reconcile firingAlerts existingAlerts filteredAlerts in
        post_alerts filteredAlerts (postAlerts inp);;
        ret NextIteration
    end.

(** What [select] picks in one iteration of the goroutine's [for]. *)
Inductive LoopEvent :=
  | CtxDone
  | TickerC (inp : CycleInput).

(** Where the goroutine of a rule stands: waiting in [select] ([Idle]),
    returned after [ctx.Done()] ([Cancelled]), or returned from inside the
    body of a tick ([Returned]). *)
Inductive LoopState := Idle | Cancelled | Returned.

(** lines 120-344: the goroutine of rule [r], run on the events its
    [select] receives. *)
Fixpoint rule_loop (r : AlertRule) (events : list LoopEvent) : M LoopState :=
  match events with
  | [] => ret Idle
  | CtxDone :: _ =>
      slog LevelInfo "rule stopped";;
      ret Cancelled
  | TickerC inp :: events' =>
      let* fl := tick r inp in
      match fl with
      | NextIteration => rule_loop r events'
      | ReturnFromGoroutine => ret Returned
      end
  end.

(** *** The stages of a tick, for the statements below *)

(** The tick up to line 232: the pointers in [firingAlerts], one per
    condition instance, and the world then. *)
Definition observed (r : AlertRule) (inp : CycleInput) (w : World)
    : list nat * World :=
  run_query r (query inp) (slog LevelDebug "executing query" w).2.

(** The tick up to line 255, when [firingAlerts] is not empty: the
    pointers in [filteredAlerts] (the candidate-submit set), and the world
    then. *)
Definition debounced (r : AlertRule) (inp : CycleInput) (w : World)
    : list nat * World :=
  filter_for r (observed r inp w).1 []
    (slog LevelInfo "alerts found" (observed r inp w).2).2.

(** The first pointer of [firingAlerts] whose alert has the label mapping
    [labels], if there is one. *)
Fixpoint first_firing (h : list PostableAlert) (firingAlerts : list nat)
    (labels : LabelSet) : option nat :=
  match firingAlerts with
  | [] => None
  | p :: rest =>
      if decide (labels_at h p = Some labels) then Some p
      else first_firing h rest labels
  end.

(** No alert of [firingAlerts] has the label mapping of [existing]. *)
Definition unmatched (h : list PostableAlert) (firingAlerts : list nat)
    (existing : GettableAlert) : Prop :=
  first_firing h firingAlerts (Labels (gAlert existing)) = None.

#[global] Instance unmatched_dec h firingAlerts existing :
  Decision (unmatched h firingAlerts existing).
Proof. unfold unmatched. apply _. Defined.

(** The alert appended for an active alert that is no longer firing, with
    end time [t]. *)
Definition resolved_alert (existing : GettableAlert) (t : Time) : PostableAlert :=
  {| Annotations := ∅; EndsAt := Some t; StartsAt := gStartsAt existing;
     PAlert := gAlert existing |}.

(** A submission alert without end time for the label mapping [labels]. *)
Definition open_for (labels : LabelSet) (a : PostableAlert) : Prop :=
  Labels (PAlert a) = labels ∧ EndsAt a = None.

#[global] Instance open_for_dec labels a : Decision (open_for labels a).
Proof. unfold open_for. apply _. Defined.

End Rule.

(** *** The alert of one row, for the statements below *)

(** lines 188-195: the text of column [i] of a scanned row, a nil value or
    a missing one reading as the empty string. *)
Definition cell (raw : list (option string)) (i : nat) : string :=
  match raw !! i with
  | Some (Some bytes) => bytes
  | _ => ""
  end.

(** The rows that the loop of lines 174-222 gets to: those before the
    first one whose scan fails. *)
Fixpoint scanned (rows : list RowEvent) : list (list (option string)) :=
  match rows with
  | Scanned raw :: rows' => raw :: scanned rows'
  | _ => []
  end.

(** lines 197-221: the alert made of the row [raw], [t] being the clock
    reading taken for it. *)
Definition row_alert (r : AlertRule) (cols : list string)
    (raw : list (option string)) (t : Time) : PostableAlert :=
  let row := fill_row 0 cols raw ∅ in
  {| Annotations := pick_cols (AnnotationCols r) row ∅;
     StartsAt := t;
     EndsAt := None;
     PAlert := {| Labels := <["alertname" := Name r]>
                              (pick_cols (LabelCols r) row ∅);
                  GeneratorURL := "" |} |}.

(** [j] is the last position of [cols] that holds [c]. *)
Definition last_at (cols : list string) (c : string) (j : nat) : Prop :=
  cols !! j = Some c ∧ ∀ j', j < j' → cols !! j' ≠ Some c.

(** ** main.go: start-up *)

(** What the steps of [main] before the goroutines meet: [os.Open] of the
    configuration file, [decoder.Decode] (an [io.EOF] counts as success
    with the zero [Config]), [sql.Open] and [db.Ping]. *)
Record Boot := {
  openConfig : option error;
  decodeConfig : Config + error;
  sqlOpen : option error;
  dbPing : option error;
}.

(** [main] up to the [for _, r := range conf.Rules] loop: the process has
    exited through [log.Fatalf], or the rule goroutines are started on the
    given configuration and world. *)
Inductive Startup `{Sys} :=
  | Fatal (msg : string)
  | Serving (conf : Config) (w : World).

Section Main.
Context `{Sys}.

Definition initial_world (statePath : string) (fs : Files) : World :=
  {| store := NewManager statePath; files := fs; reads := 0;
     heap := []; logs := []; posts := [] |}.

(** lines 60-118 *)
Definition startup (statePath : string) (fs : Files) (boot : Boot) : Startup :=
  let w := initial_world statePath fs in
  (* Load the state store *)
  let '(err, w) := Load w in
  let w := match err with
           | Some _ => (slog LevelError "error loading state file" w).2
           | None => w
           end in
  (* Unmarshal the config file *)
  match openConfig boot with
  | Some _ => Fatal "error opening config file"
  | None =>
      match decodeConfig boot with
      | inr _ => Fatal "error parsing yaml"
      | inl conf =>
          (* Open and configure a connection to the target database *)
          match sqlOpen boot with
          | Some _ => Fatal "error opening connection"
          | None =>
              match dbPing boot with
              | Some _ => Fatal "DB connection test failed"
              | None => Serving conf w
              end
          end
      end
  end.

End Main.

(** ** Sequences of calls on the store *)

Inductive StoreCall :=
  | CallMarkActive (key : string)
  | CallMarkResolved (key : string)
  | CallShouldFire (key : string) (forDuration : Duration).

Section Calls.
Context `{Sys}.

Definition run_call (c : StoreCall) : M unit :=
  match c with
  | CallMarkActive k => MarkActive k;; ret tt
  | CallMarkResolved k => MarkResolved k;; ret tt
  | CallShouldFire k d => ShouldFire k d;; ret tt
  end.

Fixpoint run_calls (cs : list StoreCall) : M unit :=
  match cs with
  | [] => ret tt
  | c :: cs' => run_call c;; run_calls cs'
  end.

End Calls.

(** ** Relations between worlds and heaps, for the statements and proofs *)

Section Relations.
Context `{Sys}.

(** What every step but an allocation, a write through a pointer or a
    post leaves alone. *)
Definition quiet (w w' : World) : Prop :=
  heap w' = heap w ∧ posts w' = posts w ∧ reads w ≤ reads w'.

(** [w'] is [w] with the objects [objs] allocated, the store untouched. *)
Definition appended (w w' : World) (objs : list PostableAlert) : Prop :=
  heap w' = heap w ++ objs ∧ posts w' = posts w ∧ store w' = store w ∧
  reads w ≤ reads w'.

(** The two alerts differ in [StartsAt] at most. *)
Definition same_but_start (a a' : PostableAlert) : Prop :=
  PAlert a' = PAlert a ∧ EndsAt a' = EndsAt a ∧ Annotations a' = Annotations a.

Definition adjusted (h h' : list PostableAlert) : Prop :=
  Forall2 same_but_start h h'.

(** The store after [MarkResolved] for each of the alerts [es] in turn. *)
Definition resolve_all (st : gmap string Time) (es : list GettableAlert)
    : gmap string Time :=
  foldl (λ st e, delete (key (Labels (gAlert e))) st) st es.

End Relations.

(** ** Assumptions on the clock, for the statements below *)
Section Clock.
Context `{Sys}.

(** A later reading of the clock is not earlier in time. *)
Definition monotone_clock : Prop :=
  ∀ n m, n ≤ m → (time_Now n ≤ time_Now m)%Z.

(** No stamp of the store is later than the next reading of the clock. *)
Definition stamps_past (w : World) : Prop :=
  map_Forall (λ _ t, (t ≤ time_Now (reads w))%Z) (state (store w)).

End Clock.

(** ** Worlds that differ in the file system only *)
Section Files.
Context `{Sys}.

Definition same_but_files (w w' : World) : Prop :=
  store w = store w' ∧ reads w = reads w' ∧ heap w = heap w' ∧
  logs w = logs w' ∧ posts w = posts w'.

(** [c] returns the same value and leaves worlds that differ in the file
    system only, when it is run on two such worlds. *)
Definition blind {A} (c : M A) : Prop :=
  ∀ w w', same_but_files w w' →
    (c w).1 = (c w').1 ∧ same_but_files (c w).2 (c w').2.

(** The same but for the value that [c] returns. *)
Definition blind_but_value {A} (c : M A) : Prop :=
  ∀ w w', same_but_files w w' → same_but_files (c w).2 (c w').2.

End Files.

(** ** A closed world to run the code on

    An in-memory file system whose writes never fail, a clock that
    advances one second per reading, and a JSON codec that handles the
    empty object only. *)
Module Sim.

Definition second : Duration := 1000000000%Z.

Definition ReadFile (fs : gmap string string) (path : string) : ReadResult :=
  match fs !! path with
  | Some data => ReadData data
  | None => ReadNotExist
  end.

Definition WriteFile (fs : gmap string string) (path data : string)
    : gmap string string * option error :=
  (<[path := data]> fs, None).

Definition Rename (fs : gmap string string) (old new : string)
    : gmap string string * option error :=
  match fs !! old with
  | Some data => (<[new := data]> (delete old fs), None)
  | None => (fs, Some "no such file or directory")
  end.

Definition Unmarshal (data : string) (st : gmap string Time)
    : gmap string Time * option error :=
  if decide (data = "{}") then (st, None)
  else (st, Some "invalid character").

Definition MarshalIndent (st : gmap string Time) : string + error :=
  if decide (st = ∅) then inl "{}" else inr "unsupported value".

Definition sys : Sys :=
  {| Files := gmap string string;
     os_ReadFile := ReadFile;
     os_WriteFile := WriteFile;
     os_Rename := Rename;
     json_Unmarshal := Unmarshal;
     json_MarshalIndent := MarshalIndent;
     time_Now := λ n, (Z.of_nat n * second)%Z |}.

End Sim.

(** ** Concrete rules, worlds and inputs *)
Module Examples.

#[local] Existing Instance Sim.sys.

(** A rule over one label column, without and with a for-duration. *)
Definition rule_now : AlertRule :=
  {| Name := "disk"; Query := "select host from disks";
     EvaluateFreq := 30 * Sim.second; LabelCols := ["host"];
     AnnotationCols := []; For := 0 |}.

Definition rule_2m : AlertRule :=
  {| Name := "disk"; Query := "select host from disks";
     EvaluateFreq := 30 * Sim.second; LabelCols := ["host"];
     AnnotationCols := []; For := 120 * Sim.second |}.

(** The label mapping of a row with [host = a]. *)
Definition labels_a : LabelSet :=
  <["alertname" := "disk"]> {["host" := "a"]}.

(** The process right after start-up, no state file. *)
Definition fresh : World := initial_world "alertstate.json" ∅.

(** An alert the backend holds as active for [labels_a]. *)
Definition active_a : GettableAlert :=
  {| gAnnotations := {["summary" := "disk full"]};
     gStartsAt := -50;
     gAlert := {| Labels := labels_a; GeneratorURL := "" |} |}.

(** An alert the backend holds as active for [host = b]. *)
Definition active_b : GettableAlert :=
  {| gAnnotations := ∅;
     gStartsAt := -70;
     gAlert := {| Labels := <["alertname" := "disk"]> {["host" := "b"]};
                  GeneratorURL := "" |} |}.

(** One tick: the query delivers [rows], the backend lists [active]. *)
Definition cycle (rows : list RowEvent) (active : list GettableAlert)
    : CycleInput :=
  {| query := QueryRows ["host"] rows None;
     getAlerts := inl active;
     postAlerts := PostResponse true |}.

Definition row_a : RowEvent := Scanned [Some "a"].

(** A start-up in which everything but the state file is in order. *)
Definition boot_ok : Boot :=
  {| openConfig := None;
     decodeConfig := inl {| Db := "postgres://localhost/db"; Rules := [rule_2m] |};
     sqlOpen := None;
     dbPing := None |}.

Definition broken_state : gmap string string :=
  {["alertstate.json" := "{:"]}.

End Examples.

(** * Theorems *)

(** ** The identity function *)

Lemma sort_ranged (r1 r2 : list string) (l : LabelSet) :
  ranges_over r1 l → ranges_over r2 l →
  merge_sort String.le r1 = merge_sort String.le r2.
Proof.
  intros [Hnd1 Hd1] [Hnd2 Hd2].
  apply (Sorted_unique String.le).
  - apply (Sorted_merge_sort String.le).
  - apply (Sorted_merge_sort String.le).
  - rewrite !merge_sort_Permutation.
    apply NoDup_Permutation; [done..|].
    intros k.
    rewrite <-(elem_of_list_to_set (C:=gset string) k r1),
            <-(elem_of_list_to_set (C:=gset string) k r2).
    by rewrite Hd1, Hd2.
Qed.

Lemma ranges_over_map_to_list (l : LabelSet) :
  ranges_over (map_to_list l).*1 l.
Proof.
  split.
  - apply NoDup_fst_map_to_list.
  - apply set_eq. intros k. rewrite elem_of_list_to_set, elem_of_dom.
    rewrite list_elem_of_fmap. split.
    + intros [[k' v] [-> Hin]]. apply elem_of_map_to_list in Hin. eauto.
    + intros [v Hv]. exists (k, v). split; [done|]. by apply elem_of_map_to_list.
Qed.

Lemma key_ranged_eq (l : LabelSet) (r1 r2 : list string) :
  ranges_over r1 l → ranges_over r2 l → key_ranged r1 l = key_ranged r2 l.
Proof.
  intros H1 H2. unfold key_ranged. case_decide; [done|].
  by rewrite (sort_ranged r1 r2 l).
Qed.

Lemma key_ranged_empty (ranged : list string) : key_ranged ranged ∅ = "".
Proof. unfold key_ranged. by rewrite map_size_empty. Qed.

Lemma key_ranged_key (ranged : list string) (labels : LabelSet) :
  ranges_over ranged labels → key_ranged ranged labels = key labels.
Proof.
  intros Hr. unfold key.
  apply key_ranged_eq; [done|apply ranges_over_map_to_list].
Qed.

(** C9. [key] does not depend on the order in which the map is ranged
    over, nor on which of two maps with the same key/value pairs it is
    given; on the empty map it is the empty string. *)
Theorem key_order_independent (l1 l2 : LabelSet) (r1 r2 : list string) :
  ranges_over r1 l1 → ranges_over r2 l2 → (∀ k, l1 !! k = l2 !! k) →
  key_ranged r1 l1 = key_ranged r2 l2 ∧ (∀ ranged, key_ranged ranged ∅ = "").
Proof.
  intros H1 H2 Heq. apply map_eq in Heq. subst l2. split.
  - by apply key_ranged_eq.
  - apply key_ranged_empty.
Qed.

Lemma key_order_independent_witness :
  key_ranged ["a"; "b"] (<["b" := "2"]> (<["a" := "1"]> ∅))
    = key_ranged ["b"; "a"] (<["a" := "1"]> (<["b" := "2"]> ∅))
  ∧ (∀ ranged, key_ranged ranged ∅ = "").
Proof.
  apply key_order_independent.
  - apply (bool_decide_unpack _). vm_compute. exact I.
  - apply (bool_decide_unpack _). vm_compute. exact I.
  - intros k.
    assert ((<["b" := "2"]> (<["a" := "1"]> ∅) : LabelSet)
            = <["a" := "1"]> (<["b" := "2"]> ∅)) as ->
      by (vm_compute; reflexivity).
    reflexivity.
Defined.

Example key_ab : key (<["b" := "2"]> (<["a" := "1"]> ∅)) = "a=1,b=2".
Proof. vm_compute. reflexivity. Qed.

(** C10. [key] is not injective: the one-entry map with value "1,b=2" under
    "a" and the two-entry map with "1" under "a" and "2" under "b" differ
    and have the same identity, in whatever order they are ranged over. *)
Theorem key_not_injective :
  ({[ "a" := "1,b=2" ]} : LabelSet) ≠ <["a" := "1"]> {[ "b" := "2" ]} ∧
  key {[ "a" := "1,b=2" ]} = "a=1,b=2" ∧
  key (<["a" := "1"]> {[ "b" := "2" ]}) = "a=1,b=2" ∧
  ∀ r1 r2, ranges_over r1 {[ "a" := "1,b=2" ]} →
           ranges_over r2 (<["a" := "1"]> {[ "b" := "2" ]}) →
           key_ranged r1 {[ "a" := "1,b=2" ]}
             = key_ranged r2 (<["a" := "1"]> {[ "b" := "2" ]}).
Proof.
  split; [|split; [|split]].
  - intros Heq. apply (f_equal (λ m, m !! "b")) in Heq.
    vm_compute in Heq. discriminate.
  - vm_compute. reflexivity.
  - vm_compute. reflexivity.
  - intros r1 r2 Hr1 Hr2. rewrite (key_ranged_key r1), (key_ranged_key r2) by done.
    vm_compute. reflexivity.
Qed.

(** ** The store *)

Lemma Sub_exact (t u : Time) :
  (minDuration ≤ t - u ≤ maxDuration)%Z → Sub t u = (t - u)%Z.
Proof. unfold Sub. lia. Qed.

Section StoreFacts.
Context `{Sys}.

Lemma flushLocked_frame (w : World) :
  let w' := (flushLocked w).2 in
  store w' = store w ∧ reads w' = reads w ∧ heap w' = heap w ∧
  logs w' = logs w ∧ posts w' = posts w.
Proof.
  unfold flushLocked. destruct (json_MarshalIndent _); simpl; [|done].
  destruct (os_WriteFile _ _ _) as [fs1 [e|]]; simpl; [done|].
  destruct (os_Rename _ _ _) as [fs2 err]; simpl. done.
Qed.

Lemma MarkActive_state (w : World) (k : string) :
  state (store (MarkActive k w).2) =
    match state (store w) !! k with
    | Some _ => state (store w)
    | None => <[k := time_Now (reads w)]> (state (store w))
    end.
Proof.
  unfold MarkActive, bind, get_state. simpl.
  destruct (state (store w) !! k) eqn:E; simpl; [done|].
  match goal with |- context [flushLocked ?w0] =>
    destruct (flushLocked_frame w0) as (-> & _) end. done.
Qed.

Lemma MarkResolved_state (w : World) (k : string) :
  state (store (MarkResolved k w).2) = delete k (state (store w)).
Proof.
  unfold MarkResolved, bind, get_state. simpl.
  destruct (state (store w) !! k) eqn:E; simpl.
  - match goal with |- context [flushLocked ?w0] =>
      destruct (flushLocked_frame w0) as (-> & _) end. done.
  - by rewrite delete_id.
Qed.

Lemma ShouldFire_store (w : World) (k : string) (d : Duration) :
  store (ShouldFire k d w).2 = store w.
Proof.
  unfold ShouldFire, bind, get_state, Since, bind, now, ret. simpl.
  by destruct (state (store w) !! k).
Qed.


(** For a duration above the least one, the saturation of [Time.Sub] does
    not show: the comparison is with the plain difference. *)
Lemma ShouldFire_iff_difference (w : World) (key : string) (forDuration : Duration) :
  (minDuration < forDuration ≤ maxDuration)%Z →
  (ShouldFire key forDuration w).1 = true ↔
    ∃ firstSeen, state (store w) !! key = Some firstSeen ∧
      (forDuration ≤ time_Now (reads w) - firstSeen)%Z.
Proof.
  intros Hd. unfold ShouldFire, bind, get_state, Since, bind, now, ret. simpl.
  destruct (state (store w) !! key) as [first|]; simpl.
  - rewrite bool_decide_eq_true. unfold Sub. split.
    + intros Hle. exists first. split; [done|lia].
    + intros (? & [= <-] & ?). lia.
  - split; [done|]. by intros (? & ? & ?).
Qed.

Lemma run_call_lookup (w : World) (X : string) (c : StoreCall) :
  c ≠ CallMarkResolved X → is_Some (state (store w) !! X) →
  state (store (run_call c w).2) !! X = state (store w) !! X.
Proof.
  intros Hc HX. destruct c as [k|k|k d]; unfold run_call, bind, ret.
  - destruct (MarkActive k w) as [e w'] eqn:E. simpl.
    replace w' with (MarkActive k w).2 by (by rewrite E).
    rewrite MarkActive_state. destruct (state (store w) !! k) eqn:Ek; [done|].
    rewrite lookup_insert_ne; [done|]. intros ->. rewrite Ek in HX. by destruct HX.
  - destruct (MarkResolved k w) as [e w'] eqn:E. simpl.
    replace w' with (MarkResolved k w).2 by (by rewrite E).
    rewrite MarkResolved_state. rewrite lookup_delete_ne; [done|]. congruence.
  - destruct (ShouldFire k d w) as [e w'] eqn:E. simpl.
    replace w' with (ShouldFire k d w).2 by (by rewrite E).
    by rewrite ShouldFire_store.
Qed.

Lemma run_calls_lookup (X : string) (cs : list StoreCall) (w : World) :
  CallMarkResolved X ∉ cs → is_Some (state (store w) !! X) →
  state (store (run_calls cs w).2) !! X = state (store w) !! X.
Proof.
  revert w. induction cs as [|c cs IH]; intros w Hcs HX; [done|].
  apply not_elem_of_cons in Hcs as [Hc Hcs]. simpl. unfold bind.
  destruct (run_call c w) as [[] w'] eqn:E.
  assert (state (store w') !! X = state (store w) !! X) as Hw'.
  { replace w' with (run_call c w).2 by (by rewrite E). by apply run_call_lookup. }
  rewrite IH; [done..|]. by rewrite Hw'.
Qed.

(** C8. After [MarkActive X], whatever calls follow on the store that are
    not [MarkResolved X], a second [MarkActive X] leaves the mapping as it
    finds it, and the stamp of [X] is still the one the first call left. *)
Theorem MarkActive_idempotent (w : World) (X : string) (calls : list StoreCall) :
  CallMarkResolved X ∉ calls →
  let w1 := (MarkActive X w).2 in
  let w2 := (run_calls calls w1).2 in
  let w3 := (MarkActive X w2).2 in
  state (store w3) = state (store w2) ∧
  state (store w3) !! X = state (store w1) !! X ∧
  is_Some (state (store w1) !! X).
Proof.
  intros Hcalls w1 w2 w3.
  assert (is_Some (state (store w1) !! X)) as H1.
  { unfold w1. rewrite MarkActive_state.
    destruct (state (store w) !! X) eqn:E; [by rewrite E|].
    rewrite lookup_insert_eq. eauto. }
  assert (state (store w2) !! X = state (store w1) !! X) as H2.
  { by apply run_calls_lookup. }
  assert (state (store w3) = state (store w2)) as H3.
  { unfold w3. rewrite MarkActive_state. rewrite H2. by destruct H1 as [? ->]. }
  split; [done|]. split; [|done]. by rewrite H3.
Qed.
End StoreFacts.

Section TickFacts.
Context `{Sys}.

(** What every step but an allocation, a write through a pointer or a
    post leaves alone. *)
Lemma bind_eq {A B} (c : M A) (k : A → M B) (w : World) :
  bind c k w = k (c w).1 (c w).2.
Proof. unfold bind. by destruct (c w). Qed.

Lemma quiet_refl w : quiet w w.
Proof. by repeat split. Qed.

Lemma quiet_trans w1 w2 w3 : quiet w1 w2 → quiet w2 w3 → quiet w1 w3.
Proof. intros (?&?&?) (?&?&?). repeat split; [congruence..|lia]. Qed.

Lemma slog_quiet l msg w : quiet w (slog l msg w).2.
Proof. by repeat split. Qed.

Lemma slog_store l msg w : store (slog l msg w).2 = store w.
Proof. done. Qed.

Lemma flushLocked_quiet w : quiet w (flushLocked w).2.
Proof.
  destruct (flushLocked_frame w) as (?&?&?&?&?).
  repeat split; [done..|lia].
Qed.

Lemma MarkActive_quiet k w : quiet w (MarkActive k w).2.
Proof.
  unfold MarkActive, bind, get_state. simpl.
  destruct (state (store w) !! k); simpl; [apply quiet_refl|].
  eapply quiet_trans; [|apply flushLocked_quiet].
  repeat split; simpl; lia.
Qed.

Lemma MarkResolved_quiet k w : quiet w (MarkResolved k w).2.
Proof.
  unfold MarkResolved, bind, get_state. simpl.
  destruct (state (store w) !! k); simpl; [|apply quiet_refl].
  eapply quiet_trans; [|apply flushLocked_quiet].
  repeat split; simpl; lia.
Qed.

Lemma ShouldFire_quiet k d w : quiet w (ShouldFire k d w).2.
Proof.
  unfold ShouldFire, bind, get_state, Since, bind, now, ret. simpl.
  destruct (state (store w) !! k); simpl; repeat split; simpl; lia.
Qed.

Lemma warn_missing_quiet colSet wanted w :
  quiet w (warn_missing colSet wanted w).2 ∧
  store (warn_missing colSet wanted w).2 = store w.
Proof.
  revert w. induction wanted as [|c wanted IH]; intros w; simpl; [by split; [apply quiet_refl|]|].
  rewrite bind_eq. case_decide.
  - apply IH.
  - destruct (IH (slog LevelWarn "column missing from query result" w).2) as [Hq Hs].
    split; [|by rewrite Hs].
    eapply quiet_trans; [apply slog_quiet|done].
Qed.
End TickFacts.

Section QueryFacts.
Context `{Sys}.

Lemma appended_nil w w' :
  heap w' = heap w → posts w' = posts w → store w' = store w →
  reads w ≤ reads w' → appended w w' [].
Proof. intros. unfold appended. by rewrite app_nil_r. Qed.

Lemma scan_rows_spec r cols rows firing w :
  ∃ objs,
    appended w (scan_rows r cols rows firing w).2 objs ∧
    (scan_rows r cols rows firing w).1.1 =
      firing ++ seq (length (heap w)) (length objs) ∧
    Forall (λ a, EndsAt a = None) objs.
Proof.
  revert firing w. induction rows as [|ev rows IH]; intros firing w.
  - exists []. simpl. rewrite !app_nil_r. by split; [apply appended_nil|].
  - destruct ev as [e|raw]; simpl.
    + exists []. simpl. rewrite !app_nil_r. by split; [apply appended_nil|].
    + rewrite !bind_eq. simpl.
      match goal with |- context [scan_rows r cols rows ?f ?w1] =>
        destruct (IH f w1) as (objs & (Hh & Hp & Hs & Hr) & Hf & Hobjs);
        set (res := scan_rows r cols rows f w1) in * end.
      simpl in *.
      eexists (_ :: objs). split; [|split].
      * repeat split; [|done|done|lia].
        rewrite Hh. by rewrite <-app_assoc.
      * rewrite Hf, length_app. simpl. rewrite <-app_assoc. simpl.
        by rewrite Nat.add_1_r.
      * by constructor.
Qed.

Lemma observed_spec r inp w :
  ∃ objs,
    appended w (observed r inp w).2 objs ∧
    (observed r inp w).1 = seq (length (heap w)) (length objs) ∧
    Forall (λ a, EndsAt a = None) objs.
Proof.
  unfold observed, run_query.
  destruct (query inp) as [e|e|cols rows final].
  - exists []. rewrite bind_eq. simpl. by split; [apply appended_nil|].
  - exists []. rewrite bind_eq. simpl. by split; [apply appended_nil|].
  - rewrite !bind_eq.
    set (w0 := (slog LevelDebug "executing query" w).2).
    destruct (warn_missing_quiet (list_to_set cols) (LabelCols r ++ AnnotationCols r) w0)
      as [(Hh1 & Hp1 & Hr1) Hs1].
    set (w1 := (warn_missing _ _ w0).2) in *.
    destruct (scan_rows_spec r cols rows [] w1) as (objs & (Hh & Hp & Hs & Hr) & Hf & Hobjs).
    set (res := scan_rows r cols rows [] w1) in *.
    destruct res as [[firing returned] w2]. simpl in *.
    exists objs.
    assert (appended w w2 objs) as Happ.
    { repeat split; [by rewrite Hh, Hh1|by rewrite Hp, Hp1|by rewrite Hs, Hs1|lia]. }
    rewrite Hh1 in Hf. simpl in Hf.
    destruct returned; [done|]. destruct final; [|done].
    rewrite bind_eq. simpl. split; [|done].
    destruct Happ as (?&?&?&?). by repeat split.
Qed.

Lemma filter_for_spec r firing acc w :
  quiet w (filter_for r firing acc w).2 ∧
  ∃ kept, (filter_for r firing acc w).1 = acc ++ kept ∧ kept ⊆ firing.
Proof.
  revert acc w. induction firing as [|p firing IH]; intros acc w; simpl.
  - split; [apply quiet_refl|]. exists []. by rewrite app_nil_r.
  - rewrite !bind_eq. simpl.
    set (k := key _).
    set (w1 := (MarkActive k w).2).
    set (w2 := (ShouldFire k (For r) w1).2).
    set (acc' := if (ShouldFire k (For r) w1).1 then acc ++ [p] else acc).
    destruct (IH acc' w2) as (Hq & kept & Hk & Hsub).
    split.
    + eapply quiet_trans; [apply MarkActive_quiet|].
      eapply quiet_trans; [apply ShouldFire_quiet|]. done.
    + rewrite Hk. unfold acc'. destruct (ShouldFire k (For r) w1).1.
      * exists (p :: kept). rewrite <-app_assoc. split; [done|].
        by apply list_subseteq_skip.
      * exists kept. split; [done|]. by apply list_subseteq_cons.
Qed.
End QueryFacts.

Section ReconcileFacts.
Context `{Sys}.

Lemma adjusted_refl h : adjusted h h.
Proof. apply Forall_Forall2_diag, Forall_forall. by intros. Qed.

Lemma adjusted_trans h1 h2 h3 : adjusted h1 h2 → adjusted h2 h3 → adjusted h1 h3.
Proof.
  unfold adjusted. intros H12 H23.
  eapply Forall2_trans; [|done..].
  intros a b c (?&?&?) (?&?&?). repeat split; congruence.
Qed.

Lemma adjusted_insert h p a t :
  h !! p = Some a → adjusted h (<[p := set_StartsAt t a]> h).
Proof.
  intros Hp. apply Forall2_same_length_lookup. split; [by rewrite length_insert|].
  intros i x y Hx Hy. destruct (decide (p = i)) as [->|Hne].
  - rewrite list_lookup_insert_eq in Hy by (by eapply lookup_lt_Some).
    simplify_eq. by repeat split.
  - rewrite list_lookup_insert_ne in Hy by done. simplify_eq. by repeat split.
Qed.

Lemma adjusted_lookup h h' extra p a :
  adjusted h h' → h !! p = Some a →
  ∃ a', (h' ++ extra) !! p = Some a' ∧ same_but_start a a'.
Proof.
  intros Hadj Hp. destruct (Forall2_lookup_l _ _ _ _ _ Hadj Hp) as (a' & Hp' & Hs).
  exists a'. split; [|done]. rewrite lookup_app_l; [done|]. by eapply lookup_lt_Some.
Qed.

Lemma adjusted_labels_at h h' extra p :
  adjusted h h' → p < length h →
  labels_at (h' ++ extra) p = labels_at h p.
Proof.
  intros Hadj Hp. apply lookup_lt_is_Some in Hp as [a Ha].
  destruct (adjusted_lookup h h' extra p a Hadj Ha) as (a' & Ha' & (HA & _)).
  unfold labels_at. rewrite Ha, Ha'. simpl. by rewrite HA.
Qed.

Lemma first_firing_adjusted h h' extra firing L :
  adjusted h h' → (∀ p, p ∈ firing → p < length h) →
  first_firing (h' ++ extra) firing L = first_firing h firing L.
Proof.
  intros Hadj. induction firing as [|p firing IH]; intros Hlt; [done|]. simpl.
  rewrite (adjusted_labels_at h h' extra p Hadj) by (apply Hlt; left).
  rewrite IH; [done|]. intros q Hq. apply Hlt. by right.
Qed.

Lemma first_firing_Some h firing L p :
  first_firing h firing L = Some p → p ∈ firing ∧ labels_at h p = Some L.
Proof.
  induction firing as [|q firing IH]; [done|]. simpl. case_decide.
  - intros [= ->]. split; [left|done].
  - intros Hf. destruct (IH Hf). split; [by right|done].
Qed.

Lemma match_firing_first e firing h :
  match_firing e firing h =
    match first_firing h firing (Labels (gAlert e)) with
    | Some p =>
        match h !! p with
        | Some a => Some (<[p := set_StartsAt (gStartsAt e) a]> h)
        | None => None
        end
    | None => None
    end.
Proof.
  induction firing as [|p firing IH]; [done|]. simpl. unfold labels_at.
  destruct (h !! p) as [a|] eqn:Hp; simpl.
  - case_decide as Hd.
    + rewrite decide_True by (by rewrite Hd). by rewrite Hp.
    + rewrite decide_False by (intros [= Heq]; by rewrite Heq in Hd). done.
  - apply IH.
Qed.

Lemma reconcile_cons firing e ex filtered w :
  reconcile firing (e :: ex) filtered w =
    match match_firing e firing (heap w) with
    | Some h' => reconcile firing ex filtered (set_heap h' w).2
    | None =>
        reconcile firing ex (filtered ++ [length (heap w)])
          (MarkResolved (key (Labels (gAlert e)))
             (alloc (resolved_alert e (time_Now (reads w))) (now w).2).2).2
    end.
Proof.
  simpl. rewrite bind_eq. simpl.
  destruct (match_firing e firing (heap w)); by rewrite !bind_eq.
Qed.

Lemma reconcile_app firing ex1 ex2 filtered w :
  reconcile firing (ex1 ++ ex2) filtered w =
    reconcile firing ex2 (reconcile firing ex1 filtered w).1
      (reconcile firing ex1 filtered w).2.
Proof.
  revert filtered w. induction ex1 as [|e ex1 IH]; intros filtered w; [done|].
  rewrite <-app_comm_cons, !reconcile_cons.
  destruct (match_firing e firing (heap w)); apply IH.
Qed.

End ReconcileFacts.

Section ReconcileSpec.
Context `{Sys}.

Lemma reconcile_spec firing ex filtered w :
  (∀ p, p ∈ firing → p < length (heap w)) →
  ∃ hadj resolved,
    heap (reconcile firing ex filtered w).2 = hadj ++ resolved ∧
    adjusted (heap w) hadj ∧
    (reconcile firing ex filtered w).1 =
      filtered ++ seq (length (heap w)) (length resolved) ∧
    posts (reconcile firing ex filtered w).2 = posts w ∧
    reads w ≤ reads (reconcile firing ex filtered w).2 ∧
    Forall2 (λ e a, ∃ n, reads w ≤ n < reads (reconcile firing ex filtered w).2 ∧
                         a = resolved_alert e (time_Now n))
      (filter (unmatched (heap w) firing) ex) resolved ∧
    state (store (reconcile firing ex filtered w).2) =
      resolve_all (state (store w)) (filter (unmatched (heap w) firing) ex).
Proof.
  intros Hlt. induction ex as [|e ex IH] using rev_ind.
  - exists (heap w), []. simpl. rewrite !app_nil_r.
    repeat split; [apply adjusted_refl|lia|constructor].
  - destruct IH as (hadj & resolved & Hh & Hadj & Hout & Hposts & Hreads & Hres & Hst).
    rewrite reconcile_app.
    destruct (reconcile firing ex filtered w) as [out1 w1].
    cbn [fst snd] in *.
    rewrite reconcile_cons, match_firing_first, Hh.
    rewrite (first_firing_adjusted (heap w) hadj resolved) by done.
    rewrite filter_app.
    assert (length hadj = length (heap w)) as Hlen
      by (symmetry; by eapply Forall2_length).
    destruct (first_firing (heap w) firing (Labels (gAlert e))) as [p|] eqn:Hff.
    + apply first_firing_Some in Hff as Hp. destruct Hp as [Hp _].
      apply Hlt in Hp.
      rewrite filter_cons_False by (unfold unmatched; by rewrite Hff).
      rewrite filter_nil, app_nil_r.
      assert (is_Some (hadj !! p)) as [a' Ha']
        by (apply lookup_lt_is_Some; lia).
      rewrite lookup_app_l by lia. rewrite Ha'. simpl.
      exists (<[p := set_StartsAt (gStartsAt e) a']> hadj), resolved.
      rewrite insert_app_l by lia.
      repeat split; try done.
      eapply adjusted_trans; [done|]. by apply adjusted_insert.
    + rewrite filter_cons_True by done. rewrite filter_nil.
      set (ra := resolved_alert e (time_Now (reads w1))).
      set (w2 := (alloc ra (now w1).2).2).
      destruct (MarkResolved_quiet (key (Labels (gAlert e))) w2) as (Hh3 & Hp3 & Hr3).
      pose proof (MarkResolved_state w2 (key (Labels (gAlert e)))) as Hs3.
      set (w3 := (MarkResolved (key (Labels (gAlert e))) w2).2) in *.
      simpl in *.
      exists hadj, (resolved ++ [ra]).
      rewrite Hh3, Hh, <-app_assoc. split; [done|]. split; [done|].
      split; [|split; [|split; [|split]]].
      * rewrite Hout, <-app_assoc. f_equal.
        rewrite !length_app. simpl. rewrite Nat.add_1_r, seq_S. f_equal.
        f_equal. lia.
      * by rewrite Hp3.
      * lia.
      * apply Forall2_app.
        -- eapply Forall2_impl; [done|]. intros e' a (n & Hn & ->).
           exists n. split; [lia|done].
        -- constructor; [|constructor]. exists (reads w1). split; [lia|done].
      * rewrite Hs3, Hst. unfold resolve_all. by rewrite foldl_app.
Qed.

End ReconcileSpec.

Section StartFacts.
Context `{Sys}.

Lemma reconcile_keeps firing ex filtered w p L :
  (∀ q, q ∈ firing → q < length (heap w)) →
  labels_at (heap w) p = Some L →
  (∀ e, e ∈ ex → Labels (gAlert e) ≠ L) →
  heap (reconcile firing ex filtered w).2 !! p = heap w !! p.
Proof.
  revert filtered w. induction ex as [|e ex IH]; intros filtered w Hlt Hp Hne; [done|].
  assert (p < length (heap w)) as Hplt.
  { apply lookup_lt_is_Some. unfold labels_at in Hp.
    destruct (heap w !! p); [eauto|done]. }
  assert (Labels (gAlert e) ≠ L) as HeL by (apply Hne; left).
  assert (∀ e', e' ∈ ex → Labels (gAlert e') ≠ L) as Hne'
    by (intros e' He'; apply Hne; by right).
  rewrite reconcile_cons, match_firing_first.
  destruct (first_firing (heap w) firing (Labels (gAlert e))) as [q|] eqn:Hff.
  - apply first_firing_Some in Hff as [Hq Hlq].
    assert (q ≠ p) as Hqp by (intros ->; congruence).
    unfold labels_at in Hlq.
    destruct (heap w !! q) as [a|] eqn:Hhq; [|done].
    rewrite IH; simpl.
    + by rewrite list_lookup_insert_ne.
    + intros q' Hq'. rewrite length_insert. by apply Hlt.
    + unfold labels_at. by rewrite list_lookup_insert_ne.
    + done.
  - set (w2 := (alloc _ (now w).2).2).
    destruct (MarkResolved_quiet (key (Labels (gAlert e))) w2) as (Hh3 & _ & _).
    set (w3 := (MarkResolved _ w2).2) in *.
    assert (heap w3 = heap w ++ [resolved_alert e (time_Now (reads w))]) as Hh
      by (by rewrite Hh3).
    rewrite IH.
    + rewrite Hh. by rewrite lookup_app_l.
    + intros q Hq. rewrite Hh, length_app. apply Hlt in Hq. lia.
    + unfold labels_at. rewrite Hh, lookup_app_l by done. done.
    + done.
Qed.

Lemma reconcile_start firing ex1 e ex2 filtered w p :
  (∀ q, q ∈ firing → q < length (heap w)) →
  first_firing (heap w) firing (Labels (gAlert e)) = Some p →
  (∀ e', e' ∈ ex2 → Labels (gAlert e') ≠ Labels (gAlert e)) →
  ∃ a, heap (reconcile firing (ex1 ++ e :: ex2) filtered w).2 !! p = Some a ∧
       StartsAt a = gStartsAt e.
Proof.
  intros Hlt Hff Hne. rewrite reconcile_app.
  destruct (reconcile_spec firing ex1 filtered w Hlt)
    as (hadj & resolved & Hh & Hadj & _).
  destruct (reconcile firing ex1 filtered w) as [out1 w1]. cbn [fst snd] in *.
  assert (length hadj = length (heap w)) as Hlen
    by (symmetry; by eapply Forall2_length).
  assert (first_firing (heap w1) firing (Labels (gAlert e)) = Some p) as Hff1.
  { rewrite Hh. by rewrite (first_firing_adjusted (heap w) hadj resolved). }
  rewrite reconcile_cons, match_firing_first, Hff1.
  apply first_firing_Some in Hff1 as [Hp Hlp].
  unfold labels_at in Hlp.
  destruct (heap w1 !! p) as [a1|] eqn:Hp1; [|done]. simpl in Hlp.
  assert (p < length (heap w1)) as Hplt by (by eapply lookup_lt_Some).
  exists (set_StartsAt (gStartsAt e) a1). split; [|done].
  rewrite (reconcile_keeps _ _ _ _ p (Labels (gAlert e))); simpl.
  - by rewrite list_lookup_insert_eq.
  - intros q Hq. rewrite length_insert, Hh, length_app. apply Hlt in Hq. lia.
  - unfold labels_at. rewrite list_lookup_insert_eq by done. simpl. congruence.
  - done.
Qed.

End StartFacts.

Section TickSpec.
Context `{Sys}.

Lemma tick_eq r inp w :
  tick r inp w =
    if decide (length (observed r inp w).1 = 0) then
      (ReturnFromGoroutine,
       (slog LevelDebug "no alerts found" (observed r inp w).2).2)
    else
      match getAlerts inp with
      | inr _ =>
          (ReturnFromGoroutine,
           (slog LevelError "failed to get active alerts" (debounced r inp w).2).2)
      | inl ex =>
          let rc := reconcile (observed r inp w).1 ex (debounced r inp w).1
                      (debounced r inp w).2 in
          (NextIteration, (post_alerts rc.1 (postAlerts inp) rc.2).2)
      end.
Proof.
  unfold tick, debounced, observed. rewrite !bind_eq.
  case_decide; [by rewrite bind_eq|].
  rewrite !bind_eq. destruct (getAlerts inp); rewrite !bind_eq; done.
Qed.

Lemma post_alerts_posts ps out w :
  posts (post_alerts ps out w).2 = posts w ++ [deref (heap w) ps] ∧
  store (post_alerts ps out w).2 = store w ∧
  reads (post_alerts ps out w).2 = reads w ∧
  heap (post_alerts ps out w).2 = heap w.
Proof.
  unfold post_alerts. rewrite !bind_eq. simpl.
  destruct out as [e|[]]; done.
Qed.

Lemma deref_app h ps qs : deref h (ps ++ qs) = deref h ps ++ deref h qs.
Proof. unfold deref. apply omap_app. Qed.

Lemma deref_fresh hadj resolved :
  deref (hadj ++ resolved) (seq (length hadj) (length resolved)) = resolved.
Proof.
  revert hadj. induction resolved as [|a resolved IH]; intros hadj; [done|].
  simpl. unfold deref. simpl.
  rewrite lookup_app_r by lia. rewrite Nat.sub_diag. simpl. f_equal.
  specialize (IH (hadj ++ [a])). rewrite length_app in IH. simpl in IH.
  rewrite Nat.add_1_r, <-app_assoc in IH. apply IH.
Qed.

Lemma deref_lookup h ps i p :
  (∀ q, q ∈ ps → q < length h) → ps !! i = Some p →
  deref h ps !! i = h !! p.
Proof.
  revert i. induction ps as [|q ps IH]; intros i Hlt Hi; [done|].
  assert (is_Some (h !! q)) as [a Ha] by (apply lookup_lt_is_Some, Hlt; left).
  unfold deref. simpl. rewrite Ha. simpl.
  destruct i as [|i]; simpl in *.
  - by simplify_eq.
  - apply IH; [|done]. intros q' Hq'. apply Hlt. by right.
Qed.

Lemma deref_cons h q ps :
  deref h (q :: ps) =
    match h !! q with Some a => a :: deref h ps | None => deref h ps end.
Proof. done. Qed.

Lemma deref_app_l h extra ps :
  (∀ q, q ∈ ps → q < length h) → deref (h ++ extra) ps = deref h ps.
Proof.
  induction ps as [|q ps IH]; intros Hlt; [done|].
  rewrite !deref_cons, lookup_app_l by (apply Hlt; left).
  rewrite IH; [done|]. intros q' Hq'. apply Hlt. by right.
Qed.

(** The pointers of [firingAlerts] are valid in the world in which the
    reconciliation starts, and their alerts have no end time. *)
Lemma observed_valid r inp w p :
  p ∈ (observed r inp w).1 →
  ∃ a, heap (debounced r inp w).2 !! p = Some a ∧ EndsAt a = None.
Proof.
  intros Hp.
  destruct (observed_spec r inp w) as (objs & (Hh & _) & Hf & Hobjs).
  destruct (filter_for_spec r (observed r inp w).1 []
              (slog LevelInfo "alerts found" (observed r inp w).2).2)
    as ((Hh2 & _) & _).
  fold (debounced r inp w) in Hh2. rewrite Hh2. simpl. rewrite Hh.
  rewrite Hf in Hp. apply elem_of_seq in Hp.
  assert (is_Some (objs !! (p - length (heap w)))) as [a Ha]
    by (apply lookup_lt_is_Some; lia).
  exists a. split.
  - rewrite lookup_app_r by lia. done.
  - eapply Forall_lookup_1 in Hobjs; [|done]. done.
Qed.

Lemma observed_lt r inp w p :
  p ∈ (observed r inp w).1 → p < length (heap (debounced r inp w).2).
Proof.
  intros Hp. destruct (observed_valid r inp w p Hp) as (a & Ha & _).
  by eapply lookup_lt_Some.
Qed.

Lemma debounced_subseteq r inp w :
  (debounced r inp w).1 ⊆ (observed r inp w).1.
Proof.
  destruct (filter_for_spec r (observed r inp w).1 []
              (slog LevelInfo "alerts found" (observed r inp w).2).2)
    as (_ & kept & Hk & Hsub).
  fold (debounced r inp w) in Hk. by rewrite Hk.
Qed.

Lemma debounced_frame r inp w :
  posts (debounced r inp w).2 = posts w ∧ reads w ≤ reads (debounced r inp w).2.
Proof.
  destruct (observed_spec r inp w) as (objs & (_ & Hp & _ & Hr) & _).
  destruct (filter_for_spec r (observed r inp w).1 []
              (slog LevelInfo "alerts found" (observed r inp w).2).2)
    as ((_ & Hp2 & Hr2) & _).
  fold (debounced r inp w) in Hp2, Hr2. simpl in *. split; [congruence|lia].
Qed.

Lemma tick_reconciled r inp w ex :
  (observed r inp w).1 ≠ [] → getAlerts inp = inl ex →
  ∃ hadj resolved,
    (tick r inp w).1 = NextIteration ∧
    posts (tick r inp w).2 =
      posts w ++ [deref hadj (debounced r inp w).1 ++ resolved] ∧
    heap (tick r inp w).2 = hadj ++ resolved ∧
    adjusted (heap (debounced r inp w).2) hadj ∧
    Forall2 (λ e a, ∃ n, reads w ≤ n < reads (tick r inp w).2 ∧
                         a = resolved_alert e (time_Now n))
      (filter (unmatched (heap (debounced r inp w).2) (observed r inp w).1) ex)
      resolved ∧
    state (store (tick r inp w).2) =
      resolve_all (state (store (debounced r inp w).2))
        (filter (unmatched (heap (debounced r inp w).2) (observed r inp w).1) ex).
Proof.
  intros Hne Hget. rewrite tick_eq, Hget.
  rewrite decide_False by (by intros ?%nil_length_inv).
  cbn zeta.
  destruct (reconcile_spec (observed r inp w).1 ex (debounced r inp w).1
              (debounced r inp w).2 (observed_lt r inp w))
    as (hadj & resolved & Hh & Hadj & Hout & Hposts & Hreads & Hres & Hst).
  destruct (debounced_frame r inp w) as [Hp2 Hr2].
  set (rc := reconcile _ _ _ _) in *.
  destruct (post_alerts_posts rc.1 (postAlerts inp) rc.2) as (Hpp & Hps & Hpr & Hph).
  assert (length hadj = length (heap (debounced r inp w).2)) as Hlen
    by (symmetry; by eapply Forall2_length).
  exists hadj, resolved. cbn [fst snd].
  split; [done|]. split; [|split; [|split; [done|split]]].
  - rewrite Hpp, Hposts, Hp2. do 2 f_equal.
    rewrite Hout, Hh, deref_app, <-Hlen, deref_fresh. f_equal.
    apply deref_app_l. intros q Hq. rewrite Hlen.
    apply observed_lt. by apply debounced_subseteq.
  - by rewrite Hph.
  - rewrite Hpr. eapply Forall2_impl; [done|]. intros e a (n & Hn & ->).
    exists n. split; [lia|done].
  - by rewrite Hps.
Qed.

End TickSpec.

Section BatchFacts.
Context `{Sys}.

Lemma tick_heap r inp w ex :
  (observed r inp w).1 ≠ [] → getAlerts inp = inl ex →
  heap (tick r inp w).2 =
    heap (reconcile (observed r inp w).1 ex (debounced r inp w).1
            (debounced r inp w).2).2.
Proof.
  intros Hne Hget. rewrite tick_eq, Hget.
  rewrite decide_False by (by intros ?%nil_length_inv).
  cbn zeta. cbn [fst snd].
  by destruct (post_alerts_posts
    (reconcile (observed r inp w).1 ex (debounced r inp w).1 (debounced r inp w).2).1
    (postAlerts inp)
    (reconcile (observed r inp w).1 ex (debounced r inp w).1 (debounced r inp w).2).2)
    as (_ & _ & _ & ->).
Qed.

Lemma deref_kept h hadj ps L :
  (∀ p, p ∈ ps → ∃ a, h !! p = Some a ∧ EndsAt a = None) →
  adjusted h hadj →
  length (deref hadj ps) = length ps ∧
  Forall (λ a, EndsAt a = None) (deref hadj ps) ∧
  length (filter (open_for L) (deref hadj ps)) =
    length (filter (λ p, labels_at h p = Some L) ps).
Proof.
  intros Hps Hadj. induction ps as [|p ps IH]; [by repeat split|].
  destruct IH as (IH1 & IH2 & IH3).
  { intros q Hq. apply Hps. by right. }
  destruct (Hps p) as (a & Ha & Hend); [left|].
  destruct (adjusted_lookup h hadj [] p a Hadj Ha) as (a' & Ha' & (HP & HE & _)).
  rewrite app_nil_r in Ha'.
  rewrite deref_cons, Ha'. split; [simpl; by rewrite IH1|].
  split; [constructor; [congruence|done]|].
  assert (labels_at h p = Some (Labels (PAlert a))) as Hlab
    by (unfold labels_at; by rewrite Ha).
  rewrite !filter_cons.
  destruct (decide (open_for L a')) as [[Hl He]|Hn].
  - rewrite decide_True by congruence. simpl. by rewrite IH3.
  - rewrite decide_False; [done|]. rewrite Hlab. intros [= HL].
    apply Hn. split; congruence.
Qed.

Lemma resolved_not_open L lo hi es resolved :
  Forall2 (λ e a, ∃ n : nat, lo ≤ n < hi ∧ a = resolved_alert e (time_Now n))
    es resolved →
  filter (open_for L) resolved = [].
Proof.
  induction 1 as [|e a es resolved (n & _ & ->) _ IH]; [done|].
  rewrite filter_cons_False; [done|]. by intros [_ ?].
Qed.

Lemma resolve_all_None st es k :
  st !! k = None → resolve_all st es !! k = None.
Proof.
  revert st. induction es as [|e es IH]; intros st Hk; [done|].
  simpl. apply IH. rewrite lookup_delete. case_decide; done.
Qed.

Lemma resolve_all_elem st es e :
  e ∈ es → resolve_all st es !! key (Labels (gAlert e)) = None.
Proof.
  revert st. induction es as [|e' es IH]; intros st He; [by apply elem_of_nil in He|].
  apply elem_of_cons in He as [->|He]; simpl.
  - apply resolve_all_None. by rewrite lookup_delete_eq.
  - by apply IH.
Qed.

End BatchFacts.

Section TickTheorems.
Context `{Sys}.

(** C1, amended to what the code does. In a tick that reaches the
    submission, the batch holds, for every label mapping, exactly as many
    alerts without end time as there are condition instances with that label
    mapping in [filteredAlerts] after the for-duration check: instances with
    equal labels are not merged. *)
Theorem submitted_per_passing_instance r inp w ex labels :
  (observed r inp w).1 ≠ [] → getAlerts inp = inl ex →
  ∃ batch,
    posts (tick r inp w).2 = posts w ++ [batch] ∧
    length (filter (open_for labels) batch) =
      length (filter (λ p, labels_at (heap (debounced r inp w).2) p = Some labels)
                (debounced r inp w).1).
Proof.
  intros Hne Hget.
  destruct (tick_reconciled r inp w ex Hne Hget)
    as (hadj & resolved & _ & Hposts & _ & Hadj & Hres & _).
  eexists. split; [done|].
  rewrite filter_app, length_app, (resolved_not_open _ _ _ _ _ Hres).
  simpl. rewrite Nat.add_0_r.
  apply (deref_kept (heap (debounced r inp w).2)); [|done].
  intros p Hp. apply observed_valid. by apply debounced_subseteq.
Qed.

(** C2, amended to what the code does. In a tick that reaches the
    reconciliation, the batch is the alerts of [filteredAlerts], none with
    an end time, followed by one alert for each active alert whose labels
    are those of no alert of [firingAlerts], in the backend's order: it has
    the active alert's labels and start time, no annotations, and a clock
    reading of this tick as end time. Afterwards the store has no record for
    the identity of any of these active alerts. *)
Theorem unmatched_alerts_resolved r inp w ex :
  (observed r inp w).1 ≠ [] → getAlerts inp = inl ex →
  ∃ kept resolved,
    posts (tick r inp w).2 = posts w ++ [kept ++ resolved] ∧
    length kept = length (debounced r inp w).1 ∧
    Forall (λ a, EndsAt a = None) kept ∧
    Forall2 (λ e a, ∃ n, reads w ≤ n < reads (tick r inp w).2 ∧
                         a = resolved_alert e (time_Now n))
      (filter (unmatched (heap (debounced r inp w).2) (observed r inp w).1) ex)
      resolved ∧
    ∀ e, e ∈ ex →
      unmatched (heap (debounced r inp w).2) (observed r inp w).1 e →
      state (store (tick r inp w).2) !! key (Labels (gAlert e)) = None.
Proof.
  intros Hne Hget.
  destruct (tick_reconciled r inp w ex Hne Hget)
    as (hadj & resolved & _ & Hposts & _ & Hadj & Hres & Hst).
  destruct (deref_kept (heap (debounced r inp w).2) hadj (debounced r inp w).1 ∅)
    as (Hlen & Hkept & _); [|done|].
  { intros p Hp. apply observed_valid. by apply debounced_subseteq. }
  exists (deref hadj (debounced r inp w).1), resolved.
  repeat split; [done..|].
  intros e He Hun. rewrite Hst. apply resolve_all_elem.
  by apply list_elem_of_filter.
Qed.

(** C3, amended to what the code does. When an active alert [e] is the last
    one the backend lists with its label mapping, and [p], the [i]-th entry
    of [filteredAlerts], is the first alert of [firingAlerts] with that
    label mapping, then the [i]-th alert of the batch is that alert with the
    start time of [e] and no end time. *)
Theorem start_time_continuity r inp w ex1 e ex2 i p :
  (observed r inp w).1 ≠ [] →
  getAlerts inp = inl (ex1 ++ e :: ex2) →
  (∀ e', e' ∈ ex2 → Labels (gAlert e') ≠ Labels (gAlert e)) →
  (debounced r inp w).1 !! i = Some p →
  first_firing (heap (debounced r inp w).2) (observed r inp w).1
    (Labels (gAlert e)) = Some p →
  ∃ batch a,
    posts (tick r inp w).2 = posts w ++ [batch] ∧
    batch !! i = Some a ∧
    StartsAt a = gStartsAt e ∧
    Labels (PAlert a) = Labels (gAlert e) ∧
    EndsAt a = None.
Proof.
  intros Hne Hget Hlast Hi Hfirst.
  destruct (tick_reconciled r inp w _ Hne Hget)
    as (hadj & resolved & _ & Hposts & Hheap & Hadj & _).
  destruct (reconcile_start (observed r inp w).1 ex1 e ex2 (debounced r inp w).1
              (debounced r inp w).2 p (observed_lt r inp w) Hfirst Hlast)
    as (a & Ha & Hstart).
  rewrite <-(tick_heap r inp w _ Hne Hget), Hheap in Ha.
  apply first_firing_Some in Hfirst as [Hp Hlab].
  destruct (observed_valid r inp w p Hp) as (a0 & Ha0 & Hend0).
  destruct (adjusted_lookup _ hadj resolved p a0 Hadj Ha0)
    as (a' & Ha' & (HP & HE & _)).
  assert (a' = a) as -> by congruence.
  assert (p < length hadj) as Hplt.
  { erewrite <-Forall2_length by exact Hadj. by eapply lookup_lt_Some. }
  exists (deref hadj (debounced r inp w).1 ++ resolved), a.
  split; [done|]. split; [|split; [done|split]].
  - rewrite lookup_app_l.
    + rewrite (deref_lookup hadj _ i p); [by rewrite <-Ha, lookup_app_l| |done].
      intros q Hq. erewrite <-Forall2_length by exact Hadj.
      apply observed_lt. by apply debounced_subseteq.
    + destruct (deref_kept (heap (debounced r inp w).2) hadj
                  (debounced r inp w).1 ∅) as (-> & _); [|done|].
      * intros q Hq. apply observed_valid. by apply debounced_subseteq.
      * by eapply lookup_lt_Some.
  - unfold labels_at in Hlab. rewrite Ha0 in Hlab. simpl in Hlab.
    rewrite HP. congruence.
  - congruence.
Qed.

(** C5, amended to what the code does. A tick hands no batch to [PostAlerts]
    when the query yields no condition instance or the fetch of the active
    alerts fails; in every other tick it hands over exactly one batch,
    whatever the batch holds. *)
Theorem posts_of_tick r inp w :
  if decide ((observed r inp w).1 = []) then
    posts (tick r inp w).2 = posts w
  else
    match getAlerts inp with
    | inr _ => posts (tick r inp w).2 = posts w
    | inl _ => ∃ batch, posts (tick r inp w).2 = posts w ++ [batch]
    end.
Proof.
  case_decide as Hobs.
  - rewrite tick_eq, Hobs. simpl.
    destruct (observed_spec r inp w) as (objs & (_ & Hp & _) & _). done.
  - destruct (getAlerts inp) as [ex|err] eqn:Hget.
    + destruct (tick_reconciled r inp w ex Hobs Hget)
        as (hadj & resolved & _ & Hposts & _). eauto.
    + rewrite tick_eq, Hget.
      rewrite decide_False by (by intros ?%nil_length_inv).
      simpl. by destruct (debounced_frame r inp w).
Qed.

Lemma tick_return_empty r inp w :
  (observed r inp w).1 = [] → (tick r inp w).1 = ReturnFromGoroutine.
Proof. intros Hobs. by rewrite tick_eq, Hobs. Qed.

Lemma tick_return_fetch r inp w err :
  getAlerts inp = inr err → (tick r inp w).1 = ReturnFromGoroutine.
Proof.
  intros Hget. rewrite tick_eq, Hget. by case_decide.
Qed.

Lemma observed_no_rows r cols final ga pa w :
  (observed r {| query := QueryRows cols [] final; getAlerts := ga;
                 postAlerts := pa |} w).1 = [].
Proof.
  unfold observed, run_query. simpl. rewrite !bind_eq. simpl.
  destruct final; [by rewrite bind_eq|done].
Qed.

Lemma rule_loop_tick r inp evs w :
  (tick r inp w).1 = ReturnFromGoroutine →
  rule_loop r (TickerC inp :: evs) w = (Returned, (tick r inp w).2).
Proof. intros Hfl. simpl. rewrite bind_eq, Hfl. done. Qed.

(** The other two ways through the loop: a tick that reaches the
    submission is followed by the next event, and cancellation ends the
    goroutine. *)
Lemma rule_loop_next r inp ex evs w :
  (observed r inp w).1 ≠ [] → getAlerts inp = inl ex →
  rule_loop r (TickerC inp :: evs) w = rule_loop r evs (tick r inp w).2.
Proof.
  intros Hne Hget. simpl. rewrite bind_eq.
  by destruct (tick_reconciled r inp w ex Hne Hget) as (? & ? & -> & _).
Qed.

Lemma rule_loop_cancel r evs w :
  (rule_loop r (CtxDone :: evs) w).1 = Cancelled.
Proof. done. Qed.

(** C4 fails on the code. After a tick whose query yields no row, and after
    a tick in which the fetch of the active alerts fails, the goroutine of
    the rule has returned: whatever [select] would receive next,
    cancellation or further ticks, is not looked at. *)
Theorem loop_returns_after_empty_or_failed_tick r w cols final ga pa err inp evs :
  rule_loop r (TickerC {| query := QueryRows cols [] final; getAlerts := ga;
                          postAlerts := pa |} :: evs) w =
    (Returned,
     (tick r {| query := QueryRows cols [] final; getAlerts := ga;
                postAlerts := pa |} w).2)
  ∧ rule_loop r (TickerC {| query := query inp; getAlerts := inr err;
                            postAlerts := postAlerts inp |} :: evs) w =
    (Returned,
     (tick r {| query := query inp; getAlerts := inr err;
                postAlerts := postAlerts inp |} w).2).
Proof.
  split; apply rule_loop_tick.
  - apply tick_return_empty, observed_no_rows.
  - by eapply tick_return_fetch.
Qed.

End TickTheorems.

Section StartupTheorems.
Context `{Sys}.

(** C6, amended to what the code does. [Load] on a missing state file
    reports no error and leaves the fresh store empty. [Load] on a state
    file that [json.Unmarshal] rejects returns that error, and [main] then
    logs "error loading state file" and goes on: when its other start-up
    steps succeed the rule goroutines are started. *)
Theorem Load_at_startup statePath fs boot conf data st e :
  (os_ReadFile fs statePath = ReadNotExist →
     (Load (initial_world statePath fs)).1 = None ∧
     state (store (Load (initial_world statePath fs)).2) = ∅) ∧
  (os_ReadFile fs statePath = ReadData data →
   json_Unmarshal data ∅ = (st, Some e) →
     (Load (initial_world statePath fs)).1 = Some e ∧
     (openConfig boot = None → decodeConfig boot = inl conf →
      sqlOpen boot = None → dbPing boot = None →
      ∃ w, startup statePath fs boot = Serving conf w ∧
           (LevelError, "error loading state file") ∈ logs w)).
Proof.
  split.
  - intros Hread. unfold Load. simpl. by rewrite Hread.
  - intros Hread Hjson.
    assert (Load (initial_world statePath fs) =
            (Some e, (set_state st (initial_world statePath fs)).2)) as HLoad.
    { unfold Load. simpl. rewrite Hread, Hjson. done. }
    split; [by rewrite HLoad|].
    intros Ho Hd Hs Hp. unfold startup. rewrite HLoad, Ho, Hd, Hs, Hp.
    eexists. split; [done|]. simpl. apply list_elem_of_here.
Qed.

End StartupTheorems.

Section StartupRuns.
Import Examples.
#[local] Existing Instance Sim.sys.

Lemma Load_at_startup_witness :
  (Load (initial_world "alertstate.json" ∅)).1 = None ∧
  state (store (Load (initial_world "alertstate.json" ∅)).2) = ∅ ∧
  (Load (initial_world "alertstate.json" broken_state)).1 = Some "invalid character" ∧
  ∃ w, startup "alertstate.json" broken_state boot_ok =
         Serving {| Db := "postgres://localhost/db"; Rules := [rule_2m] |} w ∧
       (LevelError, "error loading state file") ∈ logs w.
Proof.
  destruct (Load_at_startup (H := Sim.sys) "alertstate.json" ∅ boot_ok
              {| Db := "postgres://localhost/db"; Rules := [rule_2m] |}
              "" ∅ "") as [Hmissing _].
  destruct (Load_at_startup (H := Sim.sys) "alertstate.json" broken_state boot_ok
              {| Db := "postgres://localhost/db"; Rules := [rule_2m] |}
              "{:" ∅ "invalid character") as [_ Hbroken].
  destruct Hmissing as [H1 H2]; [reflexivity|].
  destruct Hbroken as [H3 H4]; [reflexivity|reflexivity|].
  split; [exact H1|]. split; [exact H2|]. split; [exact H3|].
  apply H4; reflexivity.
Defined.

(** C6 as the specification states it fails: a state file that does not
    parse does not keep the process from starting. *)
Lemma broken_state_file_does_not_abort :
  (Load (initial_world "alertstate.json" broken_state)).1 = Some "invalid character" ∧
  ∃ w, startup "alertstate.json" broken_state boot_ok =
         Serving {| Db := "postgres://localhost/db"; Rules := [rule_2m] |} w.
Proof. split; [reflexivity|]. eexists. reflexivity. Qed.

End StartupRuns.

Section TickRuns.
Import Examples.
#[local] Existing Instance Sim.sys.

(** C1 as the specification states it fails: two rows with the same labels
    and no for-duration give two alerts without end time for that label
    mapping in the one batch posted. *)
Lemma duplicate_rows_both_submitted :
  deref (heap (debounced rule_now (cycle [row_a; row_a] []) fresh).2)
    (observed rule_now (cycle [row_a; row_a] []) fresh).1
    = [ {| Annotations := ∅; EndsAt := None; StartsAt := 0;
           PAlert := {| Labels := labels_a; GeneratorURL := "" |} |};
        {| Annotations := ∅; EndsAt := None; StartsAt := Sim.second;
           PAlert := {| Labels := labels_a; GeneratorURL := "" |} |} ] ∧
  map (λ batch, length (filter (open_for labels_a) batch))
    (posts (tick rule_now (cycle [row_a; row_a] []) fresh).2) = [2].
Proof. split; vm_compute; reflexivity. Qed.

Lemma submitted_per_passing_instance_witness :
  (observed rule_now (cycle [row_a; row_a] []) fresh).1 ≠ [] ∧
  ∃ batch,
    posts (tick rule_now (cycle [row_a; row_a] []) fresh).2 = posts fresh ++ [batch] ∧
    length (filter (open_for labels_a) batch) =
      length (filter (λ p, labels_at (heap (debounced rule_now (cycle [row_a; row_a] []) fresh).2) p
                             = Some labels_a)
                (debounced rule_now (cycle [row_a; row_a] []) fresh).1).
Proof.
  split.
  - intros Heq. vm_compute in Heq. discriminate.
  - apply (submitted_per_passing_instance rule_now (cycle [row_a; row_a] []) fresh []).
    + intros Heq. vm_compute in Heq. discriminate.
    + reflexivity.
Defined.

(** C2 as the specification states it fails: the one row is still within its
    for-duration, so the candidate-submit set is empty and the active alert
    matches none of its entries; yet no alert is appended for it (the batch
    is empty) and the record of its identity stays. *)
Lemma active_alert_of_pending_instance_not_resolved :
  (debounced rule_2m (cycle [row_a] [active_a]) fresh).1 = [] ∧
  posts (tick rule_2m (cycle [row_a] [active_a]) fresh).2 = [[]] ∧
  state (store (tick rule_2m (cycle [row_a] [active_a]) fresh).2)
    !! key (Labels (gAlert active_a)) = Some Sim.second.
Proof. repeat split; vm_compute; reflexivity. Qed.

Lemma unmatched_alerts_resolved_witness :
  ∃ kept resolved,
    posts (tick rule_now (cycle [row_a] [active_b]) fresh).2 =
      posts fresh ++ [kept ++ resolved] ∧
    length kept = length (debounced rule_now (cycle [row_a] [active_b]) fresh).1 ∧
    Forall (λ a, EndsAt a = None) kept ∧
    Forall2 (λ e a, ∃ n, reads fresh ≤ n <
                           reads (tick rule_now (cycle [row_a] [active_b]) fresh).2 ∧
                         a = resolved_alert e (time_Now n))
      (filter (unmatched (heap (debounced rule_now (cycle [row_a] [active_b]) fresh).2)
                 (observed rule_now (cycle [row_a] [active_b]) fresh).1) [active_b])
      resolved ∧
    ∀ e, e ∈ [active_b] →
      unmatched (heap (debounced rule_now (cycle [row_a] [active_b]) fresh).2)
        (observed rule_now (cycle [row_a] [active_b]) fresh).1 e →
      state (store (tick rule_now (cycle [row_a] [active_b]) fresh).2)
        !! key (Labels (gAlert e)) = None.
Proof.
  apply (unmatched_alerts_resolved rule_now (cycle [row_a] [active_b]) fresh [active_b]).
  - intros Heq. vm_compute in Heq. discriminate.
  - reflexivity.
Defined.

(** C3 as the specification states it fails: the identity of [labels_a] is
    active in the backend since -50 and both rows for it are in the
    candidate-submit set; the second alert submitted for it carries the
    clock reading taken for its row. *)
Lemma duplicate_row_keeps_fresh_start :
  (debounced rule_now (cycle [row_a; row_a] [active_a]) fresh).1 = [0; 1] ∧
  gStartsAt active_a = (-50)%Z ∧
  map (map (λ a, (Labels (PAlert a), EndsAt a, StartsAt a)))
    (posts (tick rule_now (cycle [row_a; row_a] [active_a]) fresh).2)
    = [[(labels_a, None, (-50)%Z); (labels_a, None, time_Now 1)]].
Proof. repeat split; vm_compute; reflexivity. Qed.

Lemma start_time_continuity_witness :
  ∃ batch a,
    posts (tick rule_now (cycle [row_a; row_a] [active_a]) fresh).2 =
      posts fresh ++ [batch] ∧
    batch !! 0 = Some a ∧
    StartsAt a = gStartsAt active_a ∧
    Labels (PAlert a) = Labels (gAlert active_a) ∧
    EndsAt a = None.
Proof.
  apply (start_time_continuity rule_now (cycle [row_a; row_a] [active_a]) fresh
           [] active_a [] 0 0).
  - intros Heq. vm_compute in Heq. discriminate.
  - reflexivity.
  - intros e' He'. by apply elem_of_nil in He'.
  - vm_compute. reflexivity.
  - vm_compute. reflexivity.
Defined.

(** C5 as the specification states it fails: the one row is still within its
    for-duration and nothing is active, so the batch is empty; it is handed
    to [PostAlerts] all the same. *)
Lemma empty_batch_is_posted :
  (tick rule_2m (cycle [row_a] []) fresh).1 = NextIteration ∧
  posts (tick rule_2m (cycle [row_a] []) fresh).2 = [[]].
Proof. split; vm_compute; reflexivity. Qed.

(** C4 on a run: the first tick finds no row, the alert that is active in
    the backend is never resolved, and the tick after it, with a row, is not
    evaluated. *)
Example loop_stops_for_good :
  (rule_loop rule_2m
     [TickerC (cycle [] [active_a]); TickerC (cycle [row_a] []); CtxDone] fresh).1
    = Returned ∧
  posts (rule_loop rule_2m
     [TickerC (cycle [] [active_a]); TickerC (cycle [row_a] []); CtxDone] fresh).2
    = [] ∧
  logs (rule_loop rule_2m
     [TickerC (cycle [] [active_a]); TickerC (cycle [row_a] []); CtxDone] fresh).2
    = [(LevelDebug, "executing query"); (LevelDebug, "no alerts found")].
Proof. repeat split; vm_compute; reflexivity. Qed.


Lemma MarkActive_idempotent_witness :
  state (store (MarkActive "x" (run_calls
      [CallShouldFire "x" 0; CallMarkActive "y"; CallMarkResolved "y"]
      (MarkActive "x" fresh).2).2).2) !! "x" = Some 0%Z.
Proof.
  destruct (MarkActive_idempotent fresh "x"
    [CallShouldFire "x" 0; CallMarkActive "y"; CallMarkResolved "y"])
    as (_ & -> & _).
  - intros Hin.
    repeat (apply elem_of_cons in Hin as [Hin|Hin]; [discriminate|]).
    by apply elem_of_nil in Hin.
  - reflexivity.
Defined.

End TickRuns.


(** ** The text of the identity *)

Section StringFacts.

Lemma sapp_nil_l s : "" +:+ s = s.
Proof. done. Qed.

Lemma sapp_cons a s t : String a s +:+ t = String a (s +:+ t).
Proof. done. Qed.

Lemma sapp_nil_r s : s +:+ "" = s.
Proof. induction s as [|a s IH]; [done|]. by rewrite sapp_cons, IH. Qed.

Lemma sapp_assoc s t u : (s +:+ t) +:+ u = s +:+ (t +:+ u).
Proof. induction s as [|a s IH]; [done|]. by rewrite !sapp_cons, IH. Qed.

Lemma sapp_eq_nil s t : s +:+ t = "" → s = "" ∧ t = "".
Proof. destruct s; [done|]. by rewrite sapp_cons. Qed.

Lemma occurs_app c s t : occurs c (s +:+ t) = occurs c s || occurs c t.
Proof.
  induction s as [|a s IH]; [done|]. rewrite sapp_cons. simpl.
  by case_decide.
Qed.

(** A string is cut in one way only at the first occurrence of [c]. *)
Lemma split_at_first c s s' t t' :
  occurs c s = false → occurs c s' = false →
  s +:+ String c t = s' +:+ String c t' → s = s' ∧ t = t'.
Proof.
  revert s'. induction s as [|a s IH]; intros [|a' s'] Hs Hs' Heq;
    rewrite ?sapp_nil_l, ?sapp_cons in Heq; simplify_eq; simpl in *.
  - done.
  - by rewrite decide_True in Hs'.
  - by rewrite decide_True in Hs.
  - case_decide; [done|].
    destruct (IH s') as [-> ->]; done.
Qed.

End StringFacts.

Section IdentityShapeFacts.

Lemma concat_cons sep x xs :
  String.concat sep (x :: xs) =
    match xs with [] => x | _ => x +:+ sep +:+ String.concat sep xs end.
Proof. done. Qed.

Lemma write_pairs_concat labels keys i b :
  write_pairs i keys labels b =
    b +:+ match keys with
          | [] => ""
          | _ => (if decide (0 < i) then "," else "")
                   +:+ String.concat "," (entry labels <$> keys)
          end.
Proof.
  revert i b. induction keys as [|k keys IH]; intros i b.
  - by rewrite sapp_nil_r.
  - cbn [write_pairs]. rewrite IH, fmap_cons, concat_cons.
    rewrite (decide_True (P := 0 < S i)) by lia.
    destruct keys as [|k' keys]; cbn [fmap list_fmap];
      case_decide; unfold entry;
      rewrite ?sapp_nil_r, ?sapp_nil_l, ?sapp_assoc; done.
Qed.

Lemma key_ranged_concat ranged labels :
  ranges_over ranged labels →
  key_ranged ranged labels =
    String.concat "," (entry labels <$> merge_sort String.le ranged).
Proof.
  intros [Hnd Hdom]. unfold key_ranged. case_decide as Hsz.
  - apply map_size_empty_iff in Hsz. subst labels.
    rewrite dom_empty_L in Hdom.
    destruct ranged as [|k ranged]; [done|].
    exfalso. apply (not_elem_of_empty (C := gset string) k). rewrite <-Hdom.
    apply elem_of_list_to_set. left.
  - rewrite write_pairs_concat, sapp_nil_l.
    destruct (merge_sort String.le ranged); [done|].
    by rewrite decide_False by lia.
Qed.

End IdentityShapeFacts.

Section IdentityTheorems.

Lemma ranges_over_elem ranged labels k :
  ranges_over ranged labels → k ∈ merge_sort String.le ranged ↔ is_Some (labels !! k).
Proof.
  intros [_ Hdom]. rewrite merge_sort_Permutation, <-elem_of_dom, <-Hdom.
  by rewrite elem_of_list_to_set.
Qed.

Lemma entry_not_empty labels k : entry labels k ≠ "".
Proof.
  unfold entry. intros [_ [? _]%sapp_eq_nil]%sapp_eq_nil. done.
Qed.

Lemma concat_entries_not_empty labels k ks :
  String.concat "," (entry labels <$> k :: ks) ≠ "".
Proof.
  rewrite fmap_cons, concat_cons. destruct (entry labels <$> ks).
  - apply entry_not_empty.
  - intros [? _]%sapp_eq_nil. by eapply entry_not_empty.
Qed.

(** X1. The identity is the entries of the labels, in increasing order of
    their keys, joined by commas. *)
Theorem key_is_sorted_join ranged labels :
  ranges_over ranged labels →
  ∃ keys, keys ≡ₚ ranged ∧ Sorted String.le keys ∧
    key_ranged ranged labels = String.concat "," (entry labels <$> keys).
Proof.
  intros Hr. exists (merge_sort String.le ranged). split; [|split].
  - apply merge_sort_Permutation.
  - apply (Sorted_merge_sort String.le).
  - by apply key_ranged_concat.
Qed.

Lemma key_ranged_empty_inv ranged labels :
  ranges_over ranged labels → key_ranged ranged labels = "" → labels = ∅.
Proof.
  intros Hr. rewrite (key_ranged_concat _ _ Hr). intros Hk.
  destruct (merge_sort String.le ranged) as [|k ks] eqn:Hs.
  - apply map_empty. intros k. apply eq_None_not_Some.
    rewrite <-(ranges_over_elem ranged labels k Hr), Hs. apply not_elem_of_nil.
  - by apply concat_entries_not_empty in Hk.
Qed.

(** X2. Only the empty label mapping has the empty identity. *)
Theorem key_empty_iff ranged labels :
  ranges_over ranged labels →
  key_ranged ranged labels = "" ↔ labels = ∅.
Proof.
  intros Hr. split.
  - by apply key_ranged_empty_inv.
  - intros ->. apply key_ranged_empty.
Qed.

Lemma concat_entries_inj l1 l2 ks1 ks2 :
  separable l1 → separable l2 →
  (∀ k, k ∈ ks1 → is_Some (l1 !! k)) →
  (∀ k, k ∈ ks2 → is_Some (l2 !! k)) →
  String.concat "," (entry l1 <$> ks1) = String.concat "," (entry l2 <$> ks2) →
  ks1 = ks2 ∧ ∀ k, k ∈ ks1 → l1 !! k = l2 !! k.
Proof.
  intros Hs1 Hs2. revert ks2.
  induction ks1 as [|k1 t1 IH]; intros [|k2 t2] Hin1 Hin2 Heq.
  - split; [done|]. by intros k ?%elem_of_nil.
  - symmetry in Heq. by apply concat_entries_not_empty in Heq.
  - by apply concat_entries_not_empty in Heq.
  - destruct (Hin1 k1) as [v1 Hv1]; [left|].
    destruct (Hin2 k2) as [v2 Hv2]; [left|].
    destruct (Hs1 k1 v1 Hv1) as [Hk1 Hc1].
    destruct (Hs2 k2 v2 Hv2) as [Hk2 Hc2].
    assert (∀ k, k ∈ t1 → is_Some (l1 !! k)) as Hin1'
      by (intros; apply Hin1; by right).
    assert (∀ k, k ∈ t2 → is_Some (l2 !! k)) as Hin2'
      by (intros; apply Hin2; by right).
    assert (entry l1 k1 = k1 +:+ String "="%char v1) as He1
      by (unfold entry; by rewrite Hv1).
    assert (entry l2 k2 = k2 +:+ String "="%char v2) as He2
      by (unfold entry; by rewrite Hv2).
    rewrite !fmap_cons, !concat_cons, He1, He2 in Heq.
    destruct t1 as [|k1' t1], t2 as [|k2' t2]; cbn [fmap list_fmap] in Heq;
      rewrite ?sapp_assoc, ?sapp_cons in Heq;
      apply (split_at_first "="%char) in Heq as [-> Hrest]; try done.
    + subst v2. split; [done|].
      intros k ->%list_elem_of_singleton. congruence.
    + exfalso. subst v1.
      rewrite occurs_app in Hc1. apply orb_false_elim in Hc1 as [_ Hc1].
      done.
    + exfalso. subst v2.
      rewrite occurs_app in Hc2. apply orb_false_elim in Hc2 as [_ Hc2].
      done.
    + rewrite !sapp_nil_l in Hrest.
      apply (split_at_first ","%char) in Hrest as [-> Hrest]; [|done..].
      destruct (IH (k2' :: t2) Hin1' Hin2' Hrest) as [Hks Hl].
      split; [by rewrite Hks|].
      intros k [->|Hk]%elem_of_cons; [congruence|by apply Hl].
Qed.

(** X3. On label mappings whose keys have no "=" and whose values have no
    ",", the identity determines the mapping. *)
Theorem key_injective_on_separable r1 r2 l1 l2 :
  ranges_over r1 l1 → ranges_over r2 l2 →
  separable l1 → separable l2 →
  key_ranged r1 l1 = key_ranged r2 l2 → l1 = l2.
Proof.
  intros Hr1 Hr2 Hs1 Hs2 Hkey.
  rewrite (key_ranged_concat _ _ Hr1), (key_ranged_concat _ _ Hr2) in Hkey.
  apply concat_entries_inj in Hkey as [Hks Hl]; [|done..| |].
  - apply map_eq. intros k.
    destruct (decide (k ∈ merge_sort String.le r1)) as [Hk|Hk]; [by apply Hl|].
    assert (l1 !! k = None) as ->.
    { apply eq_None_not_Some. by rewrite <-(ranges_over_elem r1 l1 k Hr1). }
    symmetry. apply eq_None_not_Some.
    by rewrite <-(ranges_over_elem r2 l2 k Hr2), <-Hks.
  - intros k. by rewrite (ranges_over_elem r1 l1 k Hr1).
  - intros k. by rewrite (ranges_over_elem r2 l2 k Hr2).
Qed.

End IdentityTheorems.

(** ** Sequences of calls on the store, persistence *)

Section StoreLaws.
Context `{Sys}.

Lemma run_call_absent (w : World) (X : string) (c : StoreCall) :
  c ≠ CallMarkActive X → state (store w) !! X = None →
  state (store (run_call c w).2) !! X = None.
Proof.
  intros Hc HX. destruct c as [k|k|k d]; unfold run_call; rewrite bind_eq; simpl.
  - rewrite MarkActive_state. destruct (state (store w) !! k) eqn:Ek; [done|].
    rewrite lookup_insert_ne; [done|]. congruence.
  - rewrite MarkResolved_state, lookup_delete. by case_decide.
  - by rewrite ShouldFire_store.
Qed.

Lemma run_calls_absent (X : string) (cs : list StoreCall) (w : World) :
  CallMarkActive X ∉ cs → state (store w) !! X = None →
  state (store (run_calls cs w).2) !! X = None.
Proof.
  revert w. induction cs as [|c cs IH]; intros w Hcs HX; [done|].
  apply not_elem_of_cons in Hcs as [Hc Hcs]. simpl. rewrite bind_eq.
  apply IH; [done|]. by apply run_call_absent.
Qed.

Lemma ShouldFire_absent (w : World) (k : string) (d : Duration) :
  state (store w) !! k = None → (ShouldFire k d w).1 = false.
Proof.
  intros Hk. unfold ShouldFire. rewrite bind_eq. simpl. by rewrite Hk.
Qed.

(** X4. After [MarkResolved X], whatever calls follow on the store that are
    not [MarkActive X], [ShouldFire X] answers false for every
    duration. *)
Theorem resolved_never_fires (w : World) (X : string) (calls : list StoreCall)
    (d : Duration) :
  CallMarkActive X ∉ calls →
  (ShouldFire X d (run_calls calls (MarkResolved X w).2).2).1 = false.
Proof.
  intros Hcalls. apply ShouldFire_absent, run_calls_absent; [done|].
  by rewrite MarkResolved_state, lookup_delete_eq.
Qed.

(** X5. [MarkActive X] followed by [MarkResolved X] leaves the records of all
    other keys as they were and none for [X]; from a store without a
    record for [X] the two calls lead back to the same mapping. *)
Theorem MarkActive_MarkResolved_round_trip (w : World) (X : string) :
  let w2 := (MarkResolved X (MarkActive X w).2).2 in
  state (store w2) = delete X (state (store w)) ∧
  (state (store w) !! X = None → state (store w2) = state (store w)).
Proof.
  intros w2.
  assert (state (store w2) = delete X (state (store w))) as Hw2.
  { unfold w2. rewrite MarkResolved_state, MarkActive_state.
    destruct (state (store w) !! X); [done|]. by rewrite delete_insert_eq. }
  split; [done|]. intros HX. by rewrite Hw2, delete_id.
Qed.

(** X6. The state file is touched only by a call that changes the mapping: a
    [MarkActive] or [MarkResolved] that leaves the mapping as it finds it
    writes no file, takes no clock reading and returns no error. *)
Theorem unchanged_mapping_writes_nothing (w : World) (k : string) :
  (state (store (MarkActive k w).2) = state (store w) →
     MarkActive k w = (None, w))
  ∧ (state (store (MarkResolved k w).2) = state (store w) →
     MarkResolved k w = (None, w)).
Proof.
  split.
  - rewrite MarkActive_state. unfold MarkActive. rewrite bind_eq. simpl.
    destruct (state (store w) !! k) eqn:Ek; [done|].
    intros Heq. apply (f_equal (λ m, m !! k)) in Heq.
    rewrite lookup_insert_eq in Heq. congruence.
  - rewrite MarkResolved_state. unfold MarkResolved. rewrite bind_eq. simpl.
    destruct (state (store w) !! k) eqn:Ek; [|done].
    intros Heq. apply (f_equal (λ m, m !! k)) in Heq.
    rewrite lookup_delete_eq in Heq. congruence.
Qed.


End StoreLaws.

(** ** From rows to alerts *)

Section RowFacts.
Context `{Sys}.

Lemma fill_row_notin i cols raw row c :
  c ∉ cols → fill_row i cols raw row !! c = row !! c.
Proof.
  revert i row. induction cols as [|col cols IH]; intros i row Hc; [done|].
  apply not_elem_of_cons in Hc as [Hne Hc]. simpl.
  rewrite IH by done. by rewrite lookup_insert_ne.
Qed.

Lemma fill_row_last i cols raw row c j :
  last_at cols c j →
  fill_row i cols raw row !! c = Some (cell raw (i + j)).
Proof.
  revert i j row. induction cols as [|col cols IH]; intros i j row [Hj Hlast].
  - by rewrite lookup_nil in Hj.
  - simpl. destruct j as [|j].
    + injection Hj as ->. rewrite fill_row_notin.
      * rewrite lookup_insert_eq, Nat.add_0_r. done.
      * intros [j' Hj']%list_elem_of_lookup. by apply (Hlast (S j')); [lia|].
    + rewrite (IH (S i) j).
      * by replace (S i + j) with (i + S j) by lia.
      * split; [done|]. intros j' Hlt. apply (Hlast (S j')). lia.
Qed.

Lemma last_at_exists cols c : c ∈ cols → ∃ j, last_at cols c j.
Proof.
  induction cols as [|col cols IH]; [by intros ?%elem_of_nil|].
  intros Hc. destruct (decide (c ∈ cols)) as [Hin|Hnin].
  - destruct (IH Hin) as (j & Hj & Hlast). exists (S j). split; [done|].
    intros [|j'] ?; [lia|]. apply Hlast. lia.
  - apply elem_of_cons in Hc as [->|]; [|done]. exists 0. split; [done|].
    intros [|j'] ?; [lia|]. simpl. intros Hj'. apply Hnin.
    by eapply list_elem_of_lookup_2.
Qed.

Lemma last_at_elem cols c j : last_at cols c j → c ∈ cols.
Proof. intros [Hj _]. by eapply list_elem_of_lookup_2. Qed.

Lemma pick_cols_acc cols row acc c :
  pick_cols cols row acc !! c =
    if decide (c ∈ cols ∧ default "" (row !! c) ≠ "") then row !! c
    else acc !! c.
Proof.
  revert acc. induction cols as [|col cols IH]; intros acc; cbn [pick_cols].
  - rewrite decide_False; [done|]. by intros [?%elem_of_nil _].
  - rewrite IH. destruct (decide (c ∈ cols ∧ _)) as [[Hin Hv]|Hn].
    + rewrite decide_True; [done|]. split; [by right|done].
    + destruct (decide (col = c)) as [->|Hne].
      * destruct (decide (default "" (row !! c) ≠ "")) as [Hv|Hv].
        -- rewrite lookup_insert_eq, decide_True by (split; [by left|done]).
           destruct (row !! c); [done|]. by destruct Hv.
        -- rewrite decide_False; [done|]. by intros [_ ?].
      * assert (¬ (c ∈ col :: cols ∧ default "" (row !! c) ≠ "")) as Hn'.
        { intros [[->|?]%elem_of_cons ?]; [done|]. by apply Hn. }
        rewrite (decide_False (P := c ∈ col :: cols ∧ _)) by done.
        case_decide; [by rewrite lookup_insert_ne|done].
Qed.

(** X9. A listed column whose value in the row is not empty becomes an entry
    with that value, and nothing else does. *)
Theorem pick_cols_lookup cols row c v :
  pick_cols cols row ∅ !! c = Some v ↔
    c ∈ cols ∧ v ≠ "" ∧ row !! c = Some v.
Proof.
  rewrite pick_cols_acc. case_decide as Hc.
  - destruct Hc as [Hin Hv]. split.
    + intros Hr. rewrite Hr in Hv. done.
    + by intros (_ & _ & ?).
  - rewrite lookup_empty. split; [done|]. intros (Hin & Hv & Hr).
    destruct Hc. rewrite Hr. done.
Qed.

(** X10. The row maps a column name to the text of the last column of the
    result with that name, the empty string when that value is nil, and
    maps no other name. *)
Theorem fill_row_lookup cols raw c :
  (c ∉ cols → fill_row 0 cols raw ∅ !! c = None)
  ∧ (∀ j, last_at cols c j → fill_row 0 cols raw ∅ !! c = Some (cell raw j)).
Proof.
  split.
  - intros Hc. by rewrite fill_row_notin.
  - intros j Hj. by rewrite (fill_row_last 0 cols raw ∅ c j).
Qed.

(** X11. The labels of the alert of a row: [alertname] is the name of the rule,
    whatever the columns say; any other label is a label column of the
    rule that the result has, with a value that is not empty, and its
    value is that of the last result column of that name. *)
Theorem row_alert_labels r cols raw t c v :
  Labels (PAlert (row_alert r cols raw t)) !! "alertname" = Some (Name r)
  ∧ (c ≠ "alertname" →
     Labels (PAlert (row_alert r cols raw t)) !! c = Some v ↔
       c ∈ LabelCols r ∧ v ≠ "" ∧ ∃ j, last_at cols c j ∧ cell raw j = v).
Proof.
  unfold row_alert. cbn [Labels PAlert]. split; [by rewrite lookup_insert_eq|].
  intros Hc. rewrite lookup_insert_ne by done.
  rewrite pick_cols_acc. case_decide as Hd.
  - destruct Hd as [Hin Hv]. split.
    + intros Hr. rewrite Hr in Hv. split; [done|]. split; [done|].
      destruct (decide (c ∈ cols)) as [Hcols|Hcols].
      * destruct (last_at_exists cols c Hcols) as [j Hj]. exists j.
        split; [done|]. rewrite (fill_row_last 0 cols raw ∅ c j Hj) in Hr.
        by injection Hr.
      * by rewrite fill_row_notin in Hr.
    + intros (_ & _ & j & Hj & <-). by rewrite (fill_row_last 0 cols raw ∅ c j).
  - rewrite lookup_empty. split; [done|]. intros (Hin & Hv & j & Hj & <-).
    destruct Hd. split; [done|].
    by rewrite (fill_row_last 0 cols raw ∅ c j).
Qed.

(** X12. The identity of the alert of a row is never the empty text. *)
Theorem instance_identity_not_empty r cols raw t :
  key (Labels (PAlert (row_alert r cols raw t))) ≠ "".
Proof.
  intros Hk. unfold key in Hk.
  apply key_ranged_empty_inv in Hk; [|apply ranges_over_map_to_list].
  unfold row_alert in Hk. cbn [Labels PAlert] in Hk.
  by apply insert_non_empty in Hk.
Qed.

Lemma scan_rows_rows r cols rows firing w :
  let res := scan_rows r cols rows firing w in
  heap res.2 =
    heap w ++ imap (λ i raw, row_alert r cols raw (time_Now (reads w + i)))
                (scanned rows) ∧
  res.1.1 = firing ++ seq (length (heap w)) (length (scanned rows)) ∧
  reads res.2 = reads w + length (scanned rows).
Proof.
  revert firing w. induction rows as [|ev rows IH]; intros firing w.
  - simpl. rewrite !app_nil_r. split; [done|]. split; [done|lia].
  - destruct ev as [e|raw]; simpl.
    + rewrite !app_nil_r. split; [done|]. split; [done|lia].
    + rewrite !bind_eq. simpl.
      match goal with |- context [scan_rows r cols rows ?f ?w1] =>
        destruct (IH f w1) as (Hh & Hf & Hr) end.
      simpl in *. rewrite Hh, Hf, Hr. split; [|split].
      * rewrite <-app_assoc. simpl. rewrite Nat.add_0_r. do 2 f_equal.
        apply imap_ext. intros i raw' _. simpl. do 2 f_equal. lia.
      * rewrite <-app_assoc, length_app. simpl. do 3 f_equal. lia.
      * lia.
Qed.

(** X13. The query block makes one alert for every row before the first scan
    error and none for a later row; the alerts stand in the order of the
    rows, each with the clock reading taken for its row as start time.  An
    error that [rows.Err] reports after the loop takes none of them
    away. *)
Theorem observed_rows r cols rows final ga pa w :
  let inp := {| query := QueryRows cols rows final; getAlerts := ga;
                postAlerts := pa |} in
  heap (observed r inp w).2 =
    heap w ++ imap (λ i raw, row_alert r cols raw (time_Now (reads w + i)))
                (scanned rows) ∧
  (observed r inp w).1 = seq (length (heap w)) (length (scanned rows)).
Proof.
  intros inp. unfold observed, run_query, inp. cbn [query]. rewrite !bind_eq.
  set (w0 := (slog LevelDebug "executing query" w).2).
  destruct (warn_missing_quiet (list_to_set cols) (LabelCols r ++ AnnotationCols r) w0)
    as [(Hh1 & Hp1 & Hr1) Hs1].
  assert (reads (warn_missing (list_to_set cols)
                   (LabelCols r ++ AnnotationCols r) w0).2 = reads w) as Hreads.
  { clear. generalize (LabelCols r ++ AnnotationCols r). intros wanted.
    change (reads w) with (reads w0). generalize w0. clear.
    induction wanted as [|c wanted IH]; intros w0; simpl; [done|].
    rewrite bind_eq. case_decide; simpl; by rewrite IH. }
  set (w1 := (warn_missing _ _ w0).2) in *.
  destruct (scan_rows_rows r cols rows [] w1) as (Hh & Hf & Hr).
  rewrite Hh1, Hreads in Hh. rewrite Hh1 in Hf. simpl in Hh, Hf.
  set (res := scan_rows r cols rows [] w1) in *.
  destruct res as [[firing returned] w2].
  simpl in *. destruct returned; [done|]. destruct final; [|done].
  by rewrite bind_eq.
Qed.

End RowFacts.

(** ** The records of the debounce pass *)

Section DebounceFacts.
Context `{Sys}.

Lemma MarkActive_reads (w : World) (k : string) :
  reads (MarkActive k w).2 =
    match state (store w) !! k with
    | Some _ => reads w
    | None => S (reads w)
    end.
Proof.
  unfold MarkActive, bind, get_state. simpl.
  destruct (state (store w) !! k) eqn:E; simpl; [done|].
  match goal with |- context [flushLocked ?w0] =>
    destruct (flushLocked_frame w0) as (_ & -> & _) end. done.
Qed.

Lemma ShouldFire_value (w : World) (k : string) (d : Duration) :
  (ShouldFire k d w).1 =
    match state (store w) !! k with
    | Some first => bool_decide (d ≤ Sub (time_Now (reads w)) first)%Z
    | None => false
    end.
Proof.
  unfold ShouldFire, bind, get_state, Since, bind, now, ret. simpl.
  by destruct (state (store w) !! k).
Qed.

Lemma ShouldFire_reads (w : World) (k : string) (d : Duration) :
  reads (ShouldFire k d w).2 =
    match state (store w) !! k with
    | Some _ => S (reads w)
    | None => reads w
    end.
Proof.
  unfold ShouldFire, bind, get_state, Since, bind, now, ret. simpl.
  by destruct (state (store w) !! k).
Qed.

(** X8. The time that [ShouldFire] measures for a key right after the
    [MarkActive] that recorded it is the gap between two consecutive
    readings of the clock. *)
Theorem new_key_elapsed (w : World) (k : string) (d : Duration) :
  state (store w) !! k = None →
  (ShouldFire k d (MarkActive k w).2).1 =
    bool_decide (d ≤ Sub (time_Now (S (reads w))) (time_Now (reads w)))%Z.
Proof.
  intros Hk. rewrite ShouldFire_value, MarkActive_state, MarkActive_reads, Hk.
  by rewrite lookup_insert_eq.
Qed.

Lemma filter_for_state r firing acc w :
  (∀ k t, state (store w) !! k = Some t →
     state (store (filter_for r firing acc w).2) !! k = Some t) ∧
  (∀ p, p ∈ firing →
     is_Some (state (store (filter_for r firing acc w).2)
                !! key (default ∅ (labels_at (heap w) p)))).
Proof.
  revert acc w. induction firing as [|p firing IH]; intros acc w; simpl.
  - split; [done|]. by intros p ?%elem_of_nil.
  - rewrite !bind_eq. simpl.
    set (k := key _).
    set (w1 := (MarkActive k w).2).
    set (w2 := (ShouldFire k (For r) w1).2).
    set (acc' := if (ShouldFire k (For r) w1).1 then acc ++ [p] else acc).
    destruct (IH acc' w2) as [Hkeep Hrec].
    assert (heap w2 = heap w) as Hheap.
    { destruct (MarkActive_quiet k w) as (Hh1 & _).
      destruct (ShouldFire_quiet k (For r) w1) as (Hh2 & _).
      fold w1 in Hh1. fold w2 in Hh2. congruence. }
    assert (∀ k' t, state (store w) !! k' = Some t →
                    state (store w2) !! k' = Some t) as H12.
    { intros k' t Hk'. unfold w2. rewrite ShouldFire_store. unfold w1.
      rewrite MarkActive_state. destruct (state (store w) !! k) eqn:Ek; [done|].
      rewrite lookup_insert_ne; [done|]. congruence. }
    split.
    + intros k' t Hk'. by apply Hkeep, H12.
    + intros q [->|Hq]%elem_of_cons.
      * fold k.
        assert (is_Some (state (store w2) !! k)) as [t Ht].
        { unfold w2. rewrite ShouldFire_store. unfold w1.
          rewrite MarkActive_state. destruct (state (store w) !! k) eqn:Ek.
          - rewrite Ek. eauto.
          - rewrite lookup_insert_eq. eauto. }
        rewrite (Hkeep k t Ht). eauto.
      * rewrite <-Hheap. by apply Hrec.
Qed.

Lemma observed_store r inp w :
  store (observed r inp w).2 = store w ∧ reads w ≤ reads (observed r inp w).2.
Proof.
  by destruct (observed_spec r inp w) as (objs & (_ & _ & Hs & Hr) & _).
Qed.

Lemma debounced_keeps r inp w k t :
  state (store w) !! k = Some t →
  state (store (debounced r inp w).2) !! k = Some t.
Proof.
  intros Hk. unfold debounced.
  apply filter_for_state. simpl.
  destruct (observed_store r inp w) as [-> _]. done.
Qed.

(** X14. After the debounce pass the store has a record for the identity of
    every condition instance of the tick, whether or not the instance has
    passed its for-duration. *)
Theorem observed_identities_recorded r inp w p a :
  p ∈ (observed r inp w).1 →
  heap (debounced r inp w).2 !! p = Some a →
  is_Some (state (store (debounced r inp w).2) !! key (Labels (PAlert a))).
Proof.
  intros Hp Ha.
  set (w0 := (slog LevelInfo "alerts found" (observed r inp w).2).2).
  destruct (filter_for_spec r (observed r inp w).1 [] w0) as ((Hh & _) & _).
  destruct (filter_for_state r (observed r inp w).1 [] w0) as [_ Hrec].
  specialize (Hrec p Hp). unfold debounced in Ha |- *. fold w0 in Ha |- *.
  rewrite <-Hh in Hrec. unfold labels_at in Hrec. by rewrite Ha in Hrec.
Qed.

Lemma resolve_all_other st es k :
  (∀ e, e ∈ es → key (Labels (gAlert e)) ≠ k) →
  resolve_all st es !! k = st !! k.
Proof.
  revert st. induction es as [|e es IH]; intros st Hes; [done|].
  simpl. rewrite IH.
  - apply lookup_delete_ne. apply Hes. by left.
  - intros e' He'. apply Hes. by right.
Qed.

(** X15. A stamp in the store outlasts a tick, with the time it had, unless the
    reconciliation of that tick resolves an active alert of its identity:
    no tick restarts the for-duration of an identity it still sees. *)
Theorem stamp_outlasts_tick r inp w k t :
  state (store w) !! k = Some t →
  (∀ ex e, getAlerts inp = inl ex → e ∈ ex →
     unmatched (heap (debounced r inp w).2) (observed r inp w).1 e →
     key (Labels (gAlert e)) ≠ k) →
  state (store (tick r inp w).2) !! k = Some t.
Proof.
  intros Hk Hex.
  destruct (decide ((observed r inp w).1 = [])) as [He|Hne].
  - rewrite tick_eq, He. simpl.
    destruct (observed_store r inp w) as [-> _]. done.
  - destruct (getAlerts inp) as [ex|err] eqn:Hget.
    + destruct (tick_reconciled r inp w ex Hne Hget)
        as (hadj & resolved & _ & _ & _ & _ & _ & ->).
      rewrite resolve_all_other; [by apply debounced_keeps|].
      intros e [He Hun]%list_elem_of_filter. by apply (Hex ex).
    + rewrite tick_eq, Hget.
      rewrite decide_False by (by intros ?%nil_length_inv).
      simpl. by apply debounced_keeps.
Qed.

Lemma stamps_past_later w w' :
  monotone_clock → store w' = store w → reads w ≤ reads w' →
  stamps_past w → stamps_past w'.
Proof.
  intros Hmono Hs Hr Hw k t Hk. rewrite Hs in Hk.
  specialize (Hw k t Hk). specialize (Hmono _ _ Hr). simpl in *. lia.
Qed.

Lemma filter_for_all r firing acc w :
  (For r ≤ 0)%Z → monotone_clock → stamps_past w →
  (filter_for r firing acc w).1 = acc ++ firing.
Proof.
  intros Hfor Hmono. revert acc w.
  induction firing as [|p firing IH]; intros acc w Hw; simpl.
  - by rewrite app_nil_r.
  - rewrite !bind_eq. simpl.
    set (k := key _).
    set (w1 := (MarkActive k w).2).
    assert (stamps_past w1 ∧ is_Some (state (store w1) !! k)) as [Hw1 [first Hfirst]].
    { unfold stamps_past, w1. rewrite MarkActive_state, MarkActive_reads.
      destruct (state (store w) !! k) eqn:Ek.
      - split; [done|]. rewrite Ek. eauto.
      - split; [|rewrite lookup_insert_eq; eauto].
        apply map_Forall_insert_2.
        + apply Hmono. lia.
        + intros k' t' Hk'. specialize (Hw k' t' Hk').
          specialize (Hmono (reads w) (S (reads w))). simpl in *. lia. }
    assert ((ShouldFire k (For r) w1).1 = true) as Hfire.
    { rewrite ShouldFire_value, Hfirst. apply bool_decide_eq_true.
      specialize (Hw1 k first Hfirst). simpl in Hw1.
      unfold Sub, minDuration, maxDuration. lia. }
    rewrite Hfire, IH, <-app_assoc; [done|].
    eapply stamps_past_later; [done| | |done].
    + apply ShouldFire_store.
    + apply ShouldFire_quiet.
Qed.

(** X16. With a for-duration of zero or less, a clock that does not run
    backwards and no stamp from the future in the store, every condition
    instance of the tick is in the candidate-submit set, in the order of
    the rows. *)
Theorem no_for_duration_passes_all r inp w :
  (For r ≤ 0)%Z → monotone_clock → stamps_past w →
  (debounced r inp w).1 = (observed r inp w).1.
Proof.
  intros Hfor Hmono Hw. unfold debounced.
  rewrite filter_for_all; [done..|].
  destruct (observed_store r inp w) as [Hs Hr].
  by eapply stamps_past_later.
Qed.

End DebounceFacts.

(** ** The batches of a goroutine *)

Section LoopFacts.
Context `{Sys}.

Lemma tick_flow_posts r inp w :
  match (tick r inp w).1 with
  | NextIteration => ∃ batch, posts (tick r inp w).2 = posts w ++ [batch]
  | ReturnFromGoroutine => posts (tick r inp w).2 = posts w
  end.
Proof.
  destruct (decide ((observed r inp w).1 = [])) as [He|Hne].
  - rewrite tick_eq, He. simpl.
    by destruct (observed_spec r inp w) as (objs & (_ & Hp & _) & _).
  - destruct (getAlerts inp) as [ex|err] eqn:Hget.
    + destruct (tick_reconciled r inp w ex Hne Hget)
        as (hadj & resolved & -> & -> & _). eauto.
    + rewrite tick_eq, Hget.
      rewrite decide_False by (by intros ?%nil_length_inv).
      simpl. apply debounced_frame.
Qed.

(** X18. The goroutine of a rule hands the backend at most one batch per
    event it receives and takes none back; it is still waiting in
    [select] only if every event was a tick that ended in a
    submission. *)
Theorem loop_posts_once_per_tick r evs w :
  ∃ batches,
    posts (rule_loop r evs w).2 = posts w ++ batches ∧
    length batches ≤ length evs ∧
    ((rule_loop r evs w).1 = Idle → length batches = length evs).
Proof.
  revert w. induction evs as [|ev evs IH]; intros w.
  - exists []. by rewrite app_nil_r.
  - destruct ev as [|inp]; simpl.
    + exists []. rewrite app_nil_r. split; [done|]. split; [simpl; lia|done].
    + rewrite bind_eq. pose proof (tick_flow_posts r inp w) as Hp.
      destruct (tick r inp w).1.
      * destruct Hp as [batch Hp].
        destruct (IH (tick r inp w).2) as (batches & Hposts & Hlen & Hidle).
        exists (batch :: batches). rewrite Hposts, Hp, <-app_assoc.
        split; [done|]. simpl. split; [lia|]. intros Hi. by rewrite Hidle.
      * exists []. rewrite app_nil_r. split; [done|]. split; [simpl; lia|done].
Qed.

End LoopFacts.

Section RecordFacts.
Context `{Sys}.

Lemma filter_for_new r firing acc w k t :
  state (store (filter_for r firing acc w).2) !! k = Some t →
  state (store w) !! k = Some t ∨
  ∃ p, p ∈ firing ∧ key (default ∅ (labels_at (heap w) p)) = k.
Proof.
  revert acc w. induction firing as [|p firing IH]; intros acc w; simpl.
  - by left.
  - rewrite !bind_eq. simpl.
    set (k0 := key _).
    set (w1 := (MarkActive k0 w).2).
    set (w2 := (ShouldFire k0 (For r) w1).2).
    set (acc' := if (ShouldFire k0 (For r) w1).1 then acc ++ [p] else acc).
    assert (heap w2 = heap w) as Hheap.
    { destruct (MarkActive_quiet k0 w) as (Hh1 & _).
      destruct (ShouldFire_quiet k0 (For r) w1) as (Hh2 & _).
      fold w1 in Hh1. fold w2 in Hh2. congruence. }
    intros [Hk|(q & Hq & Hkq)]%IH.
    + unfold w2 in Hk. rewrite ShouldFire_store in Hk. unfold w1 in Hk.
      rewrite MarkActive_state in Hk.
      destruct (state (store w) !! k0) eqn:Ek; [by left|].
      apply lookup_insert_Some in Hk as [[<- _]|[_ Hk]]; [|by left].
      right. exists p. split; [by left|done].
    + right. exists q. split; [by right|]. by rewrite <-Hheap.
Qed.

Lemma resolve_all_Some st es k t :
  resolve_all st es !! k = Some t → st !! k = Some t.
Proof.
  revert st. induction es as [|e es IH]; intros st; [done|].
  simpl. intros Hk%IH. by apply lookup_delete_Some in Hk as [_ ?].
Qed.

Lemma debounced_new r inp w k t :
  state (store (debounced r inp w).2) !! k = Some t →
  state (store w) !! k = Some t ∨
  ∃ p a, p ∈ (observed r inp w).1 ∧
         heap (debounced r inp w).2 !! p = Some a ∧
         key (Labels (PAlert a)) = k.
Proof.
  intros Hk. unfold debounced in Hk.
  apply filter_for_new in Hk as [Hk|(p & Hp & Hkp)].
  - left. simpl in Hk. by destruct (observed_store r inp w) as [<- _].
  - right. destruct (observed_valid r inp w p Hp) as (a & Ha & _).
    exists p, a. split; [done|]. split; [done|].
    destruct (filter_for_spec r (observed r inp w).1 []
                (slog LevelInfo "alerts found" (observed r inp w).2).2)
      as ((Hh & _) & _).
    fold (debounced r inp w) in Hh. rewrite Hh in Ha.
    unfold labels_at in Hkp. by rewrite Ha in Hkp.
Qed.

(** X17. A tick makes no record but for the identity of a condition instance
    it has observed: every stamp in the store after the tick was there
    before it, or belongs to such an identity. *)
Theorem tick_records_only_observed r inp w k t :
  state (store (tick r inp w).2) !! k = Some t →
  state (store w) !! k = Some t ∨
  ∃ p a, p ∈ (observed r inp w).1 ∧
         heap (debounced r inp w).2 !! p = Some a ∧
         key (Labels (PAlert a)) = k.
Proof.
  destruct (decide ((observed r inp w).1 = [])) as [He|Hne].
  - rewrite tick_eq, He. simpl.
    destruct (observed_store r inp w) as [-> _]. by left.
  - destruct (getAlerts inp) as [ex|err] eqn:Hget.
    + destruct (tick_reconciled r inp w ex Hne Hget)
        as (hadj & resolved & _ & _ & _ & _ & _ & ->).
      intros Hk%resolve_all_Some. by apply debounced_new.
    + rewrite tick_eq, Hget.
      rewrite decide_False by (by intros ?%nil_length_inv).
      simpl. apply debounced_new.
Qed.

End RecordFacts.

(** ** What the file system cannot influence *)

Section FilesFacts.
Context `{Sys}.

Lemma blind_ret {A} (a : A) : blind (ret a).
Proof. by intros w w' Hw. Qed.

Lemma blind_bind {A B} (c : M A) (k : A → M B) :
  blind c → (∀ a, blind (k a)) → blind (bind c k).
Proof.
  intros Hc Hk w w' Hw. rewrite !bind_eq.
  destruct (Hc w w' Hw) as [-> Hw1]. by apply Hk.
Qed.

Lemma blind_then {A B} (c : M A) (k : M B) :
  blind_but_value c → blind k → blind (c ;; k).
Proof.
  intros Hc Hk w w' Hw. rewrite !bind_eq. by apply Hk, Hc.
Qed.

Lemma blind_weaken {A} (c : M A) : blind c → blind_but_value c.
Proof. intros Hc w w' Hw. by apply Hc. Qed.

Lemma blind_slog l msg : blind (slog l msg).
Proof.
  intros w w' (Hs & Hr & Hh & Hl & Hp). unfold same_but_files. simpl.
  by rewrite Hs, Hr, Hh, Hl, Hp.
Qed.

Lemma blind_now : blind now.
Proof.
  intros w w' (Hs & Hr & Hh & Hl & Hp). unfold same_but_files. simpl.
  by rewrite Hs, Hr, Hh, Hl, Hp.
Qed.

Lemma blind_alloc a : blind (alloc a).
Proof.
  intros w w' (Hs & Hr & Hh & Hl & Hp). unfold same_but_files. simpl.
  by rewrite Hs, Hr, Hh, Hl, Hp.
Qed.

Lemma blind_get_heap : blind get_heap.
Proof. intros w w' Hw. split; [apply Hw|done]. Qed.

Lemma blind_get_state : blind get_state.
Proof.
  intros w w' Hw. split; [|done]. simpl. by destruct Hw as (-> & _).
Qed.

Lemma blind_set_heap h : blind (set_heap h).
Proof.
  intros w w' (Hs & Hr & Hh & Hl & Hp). unfold same_but_files. simpl.
  by rewrite Hs, Hr, Hl, Hp.
Qed.

Lemma blind_set_state st : blind (set_state st).
Proof.
  intros w w' (Hs & Hr & Hh & Hl & Hp). unfold same_but_files. simpl.
  by rewrite Hs, Hr, Hh, Hl, Hp.
Qed.

Lemma blind_record_post batch : blind (record_post batch).
Proof.
  intros w w' (Hs & Hr & Hh & Hl & Hp). unfold same_but_files. simpl.
  by rewrite Hs, Hr, Hh, Hl, Hp.
Qed.

Lemma blind_flushLocked : blind_but_value flushLocked.
Proof.
  intros w w' (Hs & Hr & Hh & Hl & Hp).
  destruct (flushLocked_frame w) as (Hs1 & Hr1 & Hh1 & Hl1 & Hp1).
  destruct (flushLocked_frame w') as (Hs2 & Hr2 & Hh2 & Hl2 & Hp2).
  unfold same_but_files. simpl in *. repeat split; congruence.
Qed.

Lemma blind_MarkActive k : blind_but_value (MarkActive k).
Proof.
  unfold MarkActive. intros w w' Hw. rewrite !bind_eq.
  destruct (blind_get_state w w' Hw) as [<- Hw1].
  destruct ((get_state w).1 !! k).
  - by apply blind_ret.
  - rewrite !bind_eq. destruct (blind_now _ _ Hw1) as [<- Hw2].
    by apply blind_flushLocked, blind_set_state.
Qed.

Lemma blind_MarkResolved k : blind_but_value (MarkResolved k).
Proof.
  unfold MarkResolved. intros w w' Hw. rewrite !bind_eq.
  destruct (blind_get_state w w' Hw) as [<- Hw1].
  destruct ((get_state w).1 !! k).
  - rewrite !bind_eq. apply blind_flushLocked, blind_set_state. done.
  - by apply blind_ret.
Qed.

Lemma blind_ShouldFire k d : blind (ShouldFire k d).
Proof.
  unfold ShouldFire, Since. apply blind_bind; [apply blind_get_state|].
  intros st. destruct (st !! k); [|apply blind_ret].
  apply blind_bind; [|intros; apply blind_ret].
  apply blind_bind; [apply blind_now|intros; apply blind_ret].
Qed.

Lemma blind_warn_missing colSet wanted : blind (warn_missing colSet wanted).
Proof.
  induction wanted as [|c wanted IH]; simpl; [apply blind_ret|].
  apply blind_bind; [|done]. case_decide; [apply blind_ret|apply blind_slog].
Qed.

Lemma blind_scan_rows r cols rows firing : blind (scan_rows r cols rows firing).
Proof.
  revert firing. induction rows as [|[e|raw] rows IH]; intros firing; simpl.
  - apply blind_ret.
  - apply blind_bind; [apply blind_slog|intros; apply blind_ret].
  - apply blind_bind; [apply blind_now|]. intros t.
    apply blind_bind; [apply blind_alloc|]. intros p. apply IH.
Qed.

Lemma blind_run_query r q : blind (run_query r q).
Proof.
  destruct q as [e|e|cols rows final]; simpl.
  - apply blind_bind; [apply blind_slog|intros; apply blind_ret].
  - apply blind_bind; [apply blind_slog|intros; apply blind_ret].
  - apply blind_bind; [apply blind_warn_missing|]. intros _.
    apply blind_bind; [apply blind_scan_rows|]. intros [firing [|]].
    + apply blind_ret.
    + destruct final; [|apply blind_ret].
      apply blind_bind; [apply blind_slog|intros; apply blind_ret].
Qed.

Lemma blind_filter_for r firing acc : blind (filter_for r firing acc).
Proof.
  revert acc. induction firing as [|p firing IH]; intros acc; simpl.
  - apply blind_ret.
  - apply blind_bind; [apply blind_get_heap|]. intros h.
    apply blind_then; [apply blind_MarkActive|].
    apply blind_bind; [apply blind_ShouldFire|]. intros fire. apply IH.
Qed.

Lemma blind_reconcile firing ex filtered : blind (reconcile firing ex filtered).
Proof.
  revert filtered. induction ex as [|e ex IH]; intros filtered; simpl.
  - apply blind_ret.
  - apply blind_bind; [apply blind_get_heap|]. intros h.
    destruct (match_firing e firing h).
    + apply blind_bind; [apply blind_set_heap|]. intros _. apply IH.
    + apply blind_bind; [apply blind_now|]. intros t.
      apply blind_bind; [apply blind_alloc|]. intros p.
      apply blind_then; [apply blind_MarkResolved|]. apply IH.
Qed.

Lemma blind_post_alerts ps out : blind (post_alerts ps out).
Proof.
  unfold post_alerts. apply blind_bind; [apply blind_get_heap|]. intros h.
  apply blind_bind; [apply blind_record_post|]. intros _.
  destruct out as [e|[|]]; apply blind_slog.
Qed.

Lemma blind_tick r inp : blind (tick r inp).
Proof.
  unfold tick. apply blind_bind; [apply blind_slog|]. intros _.
  apply blind_bind; [apply blind_run_query|]. intros firing.
  case_decide.
  - apply blind_bind; [apply blind_slog|intros; apply blind_ret].
  - apply blind_bind; [apply blind_slog|]. intros _.
    apply blind_bind; [apply blind_filter_for|]. intros filtered.
    destruct (getAlerts inp) as [ex|err].
    + apply blind_bind; [apply blind_reconcile|]. intros filtered'.
      apply blind_bind; [apply blind_post_alerts|intros; apply blind_ret].
    + apply blind_bind; [apply blind_slog|intros; apply blind_ret].
Qed.

(** X19. The file system has no part in what the goroutine of a rule does:
    run on two worlds that differ in their files only, it ends in the
    same state and with the same batches posted, records logged, store and
    clock.  That the state file cannot be written changes nothing in what
    is submitted. *)
Theorem rule_loop_blind_to_files r evs w w' :
  same_but_files w w' →
  (rule_loop r evs w).1 = (rule_loop r evs w').1 ∧
  same_but_files (rule_loop r evs w).2 (rule_loop r evs w').2.
Proof.
  revert w w'. change (blind (rule_loop r evs)).
  induction evs as [|[|inp] evs IH]; simpl.
  - apply blind_ret.
  - apply blind_bind; [apply blind_slog|intros; apply blind_ret].
  - apply blind_bind; [apply blind_tick|]. intros [|]; [done|apply blind_ret].
Qed.

End FilesFacts.

(** ** The statements above on concrete inputs *)

Section Runs.
Import Examples.
#[local] Existing Instance Sim.sys.

Lemma key_is_sorted_join_witness :
  ∃ keys, keys ≡ₚ ["b"; "a"] ∧ Sorted String.le keys ∧
    key_ranged ["b"; "a"] (<["a" := "1"]> {["b" := "2"]}) =
      String.concat "," (entry (<["a" := "1"]> {["b" := "2"]}) <$> keys).
Proof.
  apply key_is_sorted_join.
  apply (bool_decide_unpack _). vm_compute. exact I.
Defined.

Lemma key_empty_iff_witness :
  key_ranged ["a"] {["a" := "1"]} = "" ↔ ({["a" := "1"]} : LabelSet) = ∅.
Proof.
  apply key_empty_iff.
  apply (bool_decide_unpack _). vm_compute. exact I.
Defined.

Lemma key_injective_on_separable_witness :
  (<["a" := "1"]> {["b" := "2"]} : LabelSet) = <["b" := "2"]> {["a" := "1"]}.
Proof.
  apply (key_injective_on_separable ["a"; "b"] ["b"; "a"]).
  - apply (bool_decide_unpack _). vm_compute. exact I.
  - apply (bool_decide_unpack _). vm_compute. exact I.
  - apply (bool_decide_unpack _). vm_compute. exact I.
  - apply (bool_decide_unpack _). vm_compute. exact I.
  - vm_compute. reflexivity.
Defined.

Lemma resolved_never_fires_witness :
  (ShouldFire "x" 0
     (run_calls [CallMarkActive "y"; CallShouldFire "x" 0; CallMarkResolved "y"]
        (MarkResolved "x" (MarkActive "x" fresh).2).2).2).1 = false.
Proof.
  apply resolved_never_fires. intros Hin.
  repeat (apply elem_of_cons in Hin as [Hin|Hin]; [discriminate|]).
  by apply elem_of_nil in Hin.
Defined.

Lemma MarkActive_MarkResolved_round_trip_witness :
  state (store (MarkResolved "x" (MarkActive "x" fresh).2).2) = state (store fresh).
Proof.
  apply (proj2 (MarkActive_MarkResolved_round_trip fresh "x")). reflexivity.
Defined.

Lemma unchanged_mapping_writes_nothing_witness :
  MarkActive "x" (MarkActive "x" fresh).2 = (None, (MarkActive "x" fresh).2).
Proof.
  apply (proj1 (unchanged_mapping_writes_nothing (MarkActive "x" fresh).2 "x")).
  vm_compute. reflexivity.
Defined.


Lemma fill_row_lookup_witness :
  fill_row 0 ["host"; "host"] [Some "a"; None] ∅ !! "host" = Some "".
Proof.
  apply (proj2 (fill_row_lookup ["host"; "host"] [Some "a"; None] "host") 1).
  split; [reflexivity|]. intros [|[|j']] Hj'; [lia|lia|discriminate].
Defined.

Lemma row_alert_labels_witness :
  Labels (PAlert (row_alert rule_now ["alertname"; "host"]
                    [Some "other"; Some "a"] 0)) !! "host" = Some "a".
Proof.
  apply (proj2 (row_alert_labels rule_now ["alertname"; "host"]
                  [Some "other"; Some "a"] 0 "host" "a")); [discriminate|].
  split; [by left|]. split; [discriminate|]. exists 1. split; [|reflexivity].
  split; [reflexivity|]. intros [|[|j']] Hj'; [lia|lia|discriminate].
Defined.

Lemma new_key_elapsed_witness :
  (ShouldFire "x" Sim.second (MarkActive "x" fresh).2).1 = true ∧
  (ShouldFire "x" (2 * Sim.second) (MarkActive "x" fresh).2).1 = false.
Proof.
  split.
  - rewrite (new_key_elapsed fresh "x" Sim.second); reflexivity.
  - rewrite (new_key_elapsed fresh "x" (2 * Sim.second)); reflexivity.
Defined.

Lemma observed_identities_recorded_witness :
  (debounced rule_2m (cycle [row_a] []) fresh).1 = [] ∧
  is_Some (state (store (debounced rule_2m (cycle [row_a] []) fresh).2)
             !! key labels_a).
Proof.
  split; [vm_compute; reflexivity|].
  apply (observed_identities_recorded rule_2m (cycle [row_a] []) fresh 0
           {| Annotations := ∅; EndsAt := None; StartsAt := 0;
              PAlert := {| Labels := labels_a; GeneratorURL := "" |} |}).
  - apply (bool_decide_unpack _). vm_compute. exact I.
  - vm_compute. reflexivity.
Defined.

Lemma stamp_outlasts_tick_witness :
  state (store (tick rule_2m (cycle [row_a] [active_b])
                  (tick rule_2m (cycle [row_a] []) fresh).2).2)
    !! "alertname=disk,host=a" = Some Sim.second.
Proof.
  apply stamp_outlasts_tick.
  - vm_compute. reflexivity.
  - intros ex e [= <-] ->%list_elem_of_singleton _ Heq.
    vm_compute in Heq. discriminate.
Defined.

Lemma no_for_duration_passes_all_witness :
  (debounced rule_now (cycle [row_a; row_a] [])
     (tick rule_2m (cycle [row_a] []) fresh).2).1
  = (observed rule_now (cycle [row_a; row_a] [])
       (tick rule_2m (cycle [row_a] []) fresh).2).1.
Proof.
  apply no_for_duration_passes_all.
  - reflexivity.
  - intros n m Hnm. simpl. unfold Sim.second. nia.
  - apply (bool_decide_unpack _). vm_compute. exact I.
Defined.

Lemma tick_records_only_observed_witness :
  state (store fresh) !! "alertname=disk,host=a" = Some Sim.second ∨
  ∃ p a, p ∈ (observed rule_2m (cycle [row_a] []) fresh).1 ∧
         heap (debounced rule_2m (cycle [row_a] []) fresh).2 !! p = Some a ∧
         key (Labels (PAlert a)) = "alertname=disk,host=a".
Proof.
  apply tick_records_only_observed. vm_compute. reflexivity.
Defined.

Lemma loop_posts_once_per_tick_witness :
  ∃ batches,
    posts (rule_loop rule_now [TickerC (cycle [row_a] []); TickerC (cycle [] [])]
             fresh).2 = posts fresh ++ batches ∧
    length batches ≤ 2 ∧
    ((rule_loop rule_now [TickerC (cycle [row_a] []); TickerC (cycle [] [])]
        fresh).1 = Idle → length batches = 2).
Proof.
  apply (loop_posts_once_per_tick rule_now
           [TickerC (cycle [row_a] []); TickerC (cycle [] [])] fresh).
Defined.

Lemma rule_loop_blind_to_files_witness :
  (rule_loop rule_now [TickerC (cycle [row_a] [active_b]); CtxDone] fresh).1 =
    (rule_loop rule_now [TickerC (cycle [row_a] [active_b]); CtxDone]
       (initial_world "alertstate.json" broken_state)).1 ∧
  same_but_files
    (rule_loop rule_now [TickerC (cycle [row_a] [active_b]); CtxDone] fresh).2
    (rule_loop rule_now [TickerC (cycle [row_a] [active_b]); CtxDone]
       (initial_world "alertstate.json" broken_state)).2.
Proof.
  apply rule_loop_blind_to_files. repeat split.
Defined.

End Runs.
